(** * CatalogIdentityClient: a shallow embedding and its properties

    Source: plugins/auth-backend/src/lib/catalog/CatalogIdentityClient.ts

    The client reads identity data out of the catalog: [findUser] looks up
    one user by annotations, [resolveCatalogMembership] turns a list of raw
    entity references into the set of claims (the references themselves and
    the groups they are a direct member of).

    Strings are Rocq strings (sequences of 8-bit characters) and stand for
    ASCII text, on which lower-casing is modelled; JavaScript
    objects used as dictionaries are finite maps; asynchronous calls are
    sequenced in a state-and-exception monad whose state is the world the
    two collaborators live in, together with the trace of what the client
    did to them and to the logger. *)

From Stdlib Require Import Ascii String List Bool Arith Lia.
From stdpp Require Import base option list strings gmap fin_maps.

Local Open Scope string_scope.
Local Open Scope list_scope.

(* ===================================================================== *)
(** ** JavaScript string primitives used by the client *)
(* ===================================================================== *)

Module Js.

(** [c.toLocaleLowerCase('en-US')] on one character of ASCII text: the
    letters A-Z are moved to a-z, every other character is left alone.
    The embedding covers references written in ASCII; on a letter outside
    ASCII the source lower-cases too, where this function leaves the bytes
    as they are. *)
Definition lower_ascii (c : ascii) : ascii :=
  let n := nat_of_ascii c in
  if (Nat.leb 65 n && Nat.leb n 90)%bool then ascii_of_nat (n + 32) else c.

(** [s.toLocaleLowerCase('en-US')], on ASCII text (see [lower_ascii]). *)
Fixpoint toLocaleLowerCase (s : string) : string :=
  match s with
  | EmptyString => EmptyString
  | String c s' => String (lower_ascii c) (toLocaleLowerCase s')
  end.

(** [xs.join()]: the elements separated by a comma. *)
Fixpoint join (xs : list string) : string :=
  match xs with
  | [] => ""
  | [x] => x
  | x :: xs' => x +:+ "," +:+ join xs'
  end.

(** [xs.includes(s)] *)
Definition includes (xs : list string) (s : string) : bool :=
  existsb (String.eqb s) xs.

(** [new Set(xs)] followed by the spread [[...set]]: a JavaScript [Set]
    keeps its elements in insertion order and [add] of a value already
    present changes nothing.  The set is represented by the list of its
    elements in insertion order. *)
Definition Set_add (set : list string) (x : string) : list string :=
  if includes set x then set else set ++ [x].

Definition Set_from (xs : list string) : list string :=
  fold_left Set_add xs [].

End Js.

(* ===================================================================== *)
(** ** The parts of @backstage/catalog-model the client imports *)
(* ===================================================================== *)

(** Modelled from the spec: the type [EntityName] of
    @backstage/catalog-model is not part of the sources at hand; the spec
    gives an entity reference three required fields, kind, namespace and
    name. *)
Record EntityName := mkEntityName {
  kind : string;
  namespace : string;
  name : string
}.

Global Instance EntityName_eq_dec : EqDecision EntityName.
Proof. solve_decision. Defined.

(** Modelled from the spec: one relation of a catalog entity, a type and a
    target reference. *)
Record EntityRelation := mkRelation {
  type : string;
  target : EntityName
}.

(** Modelled from the spec: the [metadata] of a catalog entity; the
    namespace is optional. *)
Record EntityMeta := mkMeta {
  meta_name : string;
  meta_namespace : option string;
  meta_annotations : gmap string string
}.

(** Modelled from the spec: [Entity] (and [UserEntity], which is the same
    record seen through a type cast), with the fields the client reads.
    [relations] is optional. *)
Record Entity := mkEntity {
  entity_kind : string;
  metadata : EntityMeta;
  relations : option (list EntityRelation)
}.

Global Instance Entity_inhabited : Inhabited Entity :=
  populate (mkEntity "" (mkMeta "" None ∅) None).

Module CatalogModel.

(** Modelled from the spec: the constant [RELATION_MEMBER_OF] of
    @backstage/catalog-model is not part of the sources at hand; the spec
    gives its value as the relation type "memberOf". *)
Definition RELATION_MEMBER_OF : string := "memberOf".

(** Modelled from the spec: the default namespace of the catalog model,
    "default". *)
Definition DEFAULT_NAMESPACE : string := "default".

(** The second argument of [parseEntityRef]. *)
Record Context := mkContext {
  defaultKind : string;
  defaultNamespace : string
}.

(** The two separators of the grammar of references. *)
Definition is_sep (c : ascii) : bool :=
  Ascii.eqb c ":" || Ascii.eqb c "/".

Fixpoint has_sep (s : string) : bool :=
  match s with
  | EmptyString => false
  | String c s' => is_sep c || has_sep s'
  end.

(** One segment of a reference: a non-empty run of characters that are
    neither [:] nor [/]. *)
Definition segment (s : string) : bool :=
  negb (String.eqb s "") && negb (has_sep s).

(** [split_at c s]: the text before and after the first [c] of [s]. *)
Fixpoint split_at (c : ascii) (s : string) : option (string * string) :=
  match s with
  | EmptyString => None
  | String a s' =>
      if Ascii.eqb a c then Some (EmptyString, s')
      else match split_at c s' with
           | Some (l, r) => Some (String a l, r)
           | None => None
           end
  end.

Definition opt_segment (o : option string) : bool :=
  match o with
  | Some s => segment s
  | None => true
  end.

(** Modelled from the spec: [parseEntityRef] of @backstage/catalog-model
    is not part of the sources at hand.  The spec gives the grammar of a
    raw reference as [[kind:][namespace/]name], parsed against a default
    kind and a default namespace used when those segments are absent, and
    failing explicitly when the grammar is violated (an empty name,
    malformed separators).  The grammar restricts nothing but the two
    separators: a segment is any non-empty text without [:] and [/].  The
    thrown exception is the result [None]. *)
Definition parseEntityRef (ref : string) (context : Context)
  : option EntityName :=
  let '(k, rest) :=
    match split_at ":" ref with
    | Some (l, r) => (Some l, r)
    | None => (None, ref)
    end in
  let '(ns, n) :=
    match split_at "/" rest with
    | Some (l, r) => (Some l, r)
    | None => (None, rest)
    end in
  if opt_segment k && opt_segment ns && segment n
  then Some {| kind := default (defaultKind context) k;
               namespace := default (defaultNamespace context) ns;
               name := n |}
  else None.

(** Modelled from the spec: [stringifyEntityRef] of
    @backstage/catalog-model is not part of the sources at hand.  The
    spec gives the canonical form as the lower-cased, fully-qualified
    string [kind:namespace/name].  This is the function on a compound
    reference (an [EntityName]). *)
Definition stringifyEntityRef (ref : EntityName) : string :=
  Js.toLocaleLowerCase (kind ref) +:+ ":" +:+
  Js.toLocaleLowerCase (namespace ref) +:+ "/" +:+
  Js.toLocaleLowerCase (name ref).

(** Modelled from the spec: the same function applied to an entity, which
    is identified by its kind, its [metadata.namespace] (the default
    namespace when omitted) and its [metadata.name]. *)
Definition entityName (e : Entity) : EntityName :=
  {| kind := entity_kind e;
     namespace := default DEFAULT_NAMESPACE (meta_namespace (metadata e));
     name := meta_name (metadata e) |}.

Definition stringifyEntity (e : Entity) : string :=
  stringifyEntityRef (entityName e).

End CatalogModel.

Import CatalogModel.

(* ===================================================================== *)
(** ** Effects: collaborators, logger, exceptions *)
(* ===================================================================== *)

(** The [filter] of a catalog request: one record of attribute paths
    ([findUser]) or an array of such records ([resolveCatalogMembership]). *)
Inductive EntityFilter :=
| FilterRecord (f : gmap string string)
| FilterArray (fs : list (gmap string string)).

Inductive Level := warn | debug.

(** What the client did, in the order it did it. *)
Inductive Event :=
| GetToken
| GetEntities (filter : EntityFilter) (token : string)
| Log (level : Level) (message : string).

(** The optional winston logger of a query.  A call [logger.warn(m)] or
    [logger.debug(m)] is recorded in the trace as [Log warn m] or
    [Log debug m]; it returns normally. *)
Variant Logger : Set := WinstonLogger.

(** The exceptions a call can end with: the two thrown by the client, and
    whatever a collaborator rejected its promise with. *)
Inductive Error (Fault : Type) :=
| NotFoundError (message : string)
| ConflictError (message : string)
| CollaboratorFault (fault : Fault).
Global Arguments NotFoundError {Fault} message.
Global Arguments ConflictError {Fault} message.
Global Arguments CollaboratorFault {Fault} fault.

Inductive Result (Fault A : Type) :=
| Ok (value : A)
| Throw (error : Error Fault).
Global Arguments Ok {Fault A} value.
Global Arguments Throw {Fault A} error.

(** [W] is the state of the world the collaborators read and change. *)
Record State (W : Type) := mkState {
  world : W;
  trace : list Event
}.
Global Arguments mkState {W} world trace.
Global Arguments world {W} s.
Global Arguments trace {W} s.

(** [TokenManager]: [getToken()] resolves to [{ token }] or rejects. *)
Record TokenManager (W Fault : Type) := mkTokenManager {
  getToken : W -> (Fault + string) * W
}.
Global Arguments mkTokenManager {W Fault} getToken.
Global Arguments getToken {W Fault} t w.

(** [CatalogApi]: [getEntities({ filter }, { token })] resolves to
    [{ items }] or rejects. *)
Record CatalogApi (W Fault : Type) := mkCatalogApi {
  getEntities : EntityFilter -> string -> W -> (Fault + list Entity) * W
}.
Global Arguments mkCatalogApi {W Fault} getEntities.
Global Arguments getEntities {W Fault} c filter token w.

(** The two private fields of the class. *)
Record CatalogIdentityClient (W Fault : Type) := mkClient {
  catalogApi : CatalogApi W Fault;
  tokenManager : TokenManager W Fault
}.
Global Arguments mkClient {W Fault} catalogApi tokenManager.
Global Arguments catalogApi {W Fault} c.
Global Arguments tokenManager {W Fault} c.

Record UserQuery := mkUserQuery {
  annotations : gmap string string
}.

Record MemberClaimQuery := mkMemberClaimQuery {
  entityRefs : list string;
  logger : option Logger
}.

(** An asynchronous computation: it runs on a state and ends with a value
    or an exception; what it did before an exception stays done. *)
Definition M (W Fault A : Type) : Type :=
  State W -> Result Fault A * State W.

Global Instance M_ret {W Fault} : MRet (M W Fault) :=
  fun A (a : A) st => (Ok a, st).

Global Instance M_bind {W Fault} : MBind (M W Fault) :=
  fun A B (k : A -> M W Fault B) (m : M W Fault A) st =>
    match m st with
    | (Ok a, st') => k a st'
    | (Throw e, st') => (Throw e, st')
    end.

Global Instance M_throw {W Fault} : MThrow (Error Fault) (M W Fault) :=
  fun A e st => (Throw e, st).

Definition emit {W} (ev : Event) (st : State W) : State W :=
  {| world := world st; trace := trace st ++ [ev] |}.

Section Client.
Context {W Fault : Type}.

(** [await this.tokenManager.getToken()] *)
Definition await_getToken (self : CatalogIdentityClient W Fault)
  : M W Fault string :=
  fun st =>
    match getToken (tokenManager self) (world st) with
    | (inr token, w') =>
        (Ok token, emit GetToken {| world := w'; trace := trace st |})
    | (inl fault, w') =>
        (Throw (CollaboratorFault fault),
         emit GetToken {| world := w'; trace := trace st |})
    end.

(** [await this.catalogApi.getEntities({ filter }, { token })] *)
Definition await_getEntities (self : CatalogIdentityClient W Fault)
    (filter : EntityFilter) (token : string) : M W Fault (list Entity) :=
  fun st =>
    match getEntities (catalogApi self) filter token (world st) with
    | (inr items, w') =>
        (Ok items,
         emit (GetEntities filter token) {| world := w'; trace := trace st |})
    | (inl fault, w') =>
        (Throw (CollaboratorFault fault),
         emit (GetEntities filter token) {| world := w'; trace := trace st |})
    end.

(** [logger?.warn(message)] and [logger?.debug(message)] *)
Definition log (logger : option Logger) (level : Level) (message : string)
  : M W Fault unit :=
  fun st =>
    match logger with
    | Some _ => (Ok tt, emit (Log level message) st)
    | None => (Ok tt, st)
    end.

(** The filter object built at the start of [findUser]: the literal
    [{ kind: 'user' }], then one assignment per entry of the
    annotations. *)
Definition userFilter (query : UserQuery) : gmap string string :=
  fold_left
    (fun (filter : gmap string string) '(key, value) =>
       <["metadata.annotations." +:+ key := value]> filter)
    (map_to_list (annotations query))
    {["kind" := "user"]}.

Definition findUser (self : CatalogIdentityClient W Fault)
    (query : UserQuery) : M W Fault Entity :=
  let filter := userFilter query in
  token ← await_getToken self;
  items ← await_getEntities self (FilterRecord filter) token;
  if negb (Nat.eqb (length items) 1) then
    if Nat.ltb 1 (length items) then
      mthrow (ConflictError "User lookup resulted in multiple matches")
    else
      mthrow (NotFoundError "User not found")
  else
    mret (items !!! 0).

(** The callback of the first [map] of [resolveCatalogMembership]: the
    [try] returns the parsed reference, the [catch] warns and returns
    [null]. *)
Definition parseOne (logger : option Logger) (ref : string)
  : M W Fault (option EntityName) :=
  match parseEntityRef (Js.toLocaleLowerCase ref)
          {| defaultKind := "user"; defaultNamespace := "default" |} with
  | Some parsedRef => mret (Some parsedRef)
  | None =>
      log logger warn
        ("Failed to parse entityRef from " +:+ ref +:+ ", ignoring");;
      mret None
  end.

(** One record of the batch filter. *)
Definition refFilter (ref : EntityName) : gmap string string :=
  {[ "kind" := kind ref;
     "metadata.namespace" := namespace ref;
     "metadata.name" := name ref ]}.

(** The callback of [entities.flatMap]. *)
Definition memberOfTargets (e : Entity) : list EntityName :=
  match relations e with
  | Some rs =>
      map target
        (List.filter (fun r => String.eqb (type r) RELATION_MEMBER_OF) rs)
  | None => []
  end.

Definition missingEntityNames (resolvedEntityRefs : list EntityName)
    (entities : list Entity) : list string :=
  let foundEntityNames := map stringifyEntity entities in
  List.filter (fun s => negb (Js.includes foundEntityNames s))
    (map stringifyEntityRef resolvedEntityRefs).

Definition resolveCatalogMembership (self : CatalogIdentityClient W Fault)
    (query : MemberClaimQuery) : M W Fault (list string) :=
  let entityRefs := entityRefs query in
  let logger := logger query in
  mapped ← mapM (parseOne logger) entityRefs;
  let resolvedEntityRefs := omap id mapped in
  let filter := map refFilter resolvedEntityRefs in
  token ← await_getToken self;
  entities ← await_getEntities self (FilterArray filter) token;
  (if negb (Nat.eqb (length entityRefs) (length entities)) then
     log logger debug
       ("Entities not found for refs "
        +:+ Js.join (missingEntityNames resolvedEntityRefs entities))
   else mret tt);;
  let memberOf := flat_map memberOfTargets entities in
  let newEntityRefs :=
    Js.Set_from (map stringifyEntityRef (resolvedEntityRefs ++ memberOf)) in
  log logger debug
    ("Found catalog membership: " +:+ Js.join newEntityRefs);;
  mret newEntityRefs.

End Client.

(* ===================================================================== *)
(** ** Vocabulary of the statements *)
(* ===================================================================== *)

(** Normalization of one raw reference, as the first [map] of
    [resolveCatalogMembership] does it: lower-case, then parse against the
    defaults. *)
Definition normalize (ref : string) : option EntityName :=
  parseEntityRef (Js.toLocaleLowerCase ref)
    {| defaultKind := "user"; defaultNamespace := "default" |}.

(** The successfully parsed references of an input, in input order. *)
Definition parsedRefs (refs : list string) : list EntityName :=
  omap normalize refs.

(** The warnings of the parsing phase: one per reference that does not
    parse, if there is a logger. *)
Definition parseWarnings (logger : option Logger) (refs : list string)
  : list Event :=
  match logger with
  | Some _ =>
      flat_map
        (fun ref =>
           match normalize ref with
           | Some _ => []
           | None =>
               [Log warn
                  ("Failed to parse entityRef from " +:+ ref +:+ ", ignoring")]
           end)
        refs
  | None => []
  end.

(** The missing-entity diagnostic. *)
Definition missingDiagnostic (refs : list string) (entities : list Entity)
  : Event :=
  Log debug
    ("Entities not found for refs "
     +:+ Js.join (missingEntityNames (parsedRefs refs) entities)).

(** What a call on the optional logger adds to the trace. *)
Definition emitted (logger : option Logger) (ev : Event) : list Event :=
  match logger with
  | Some _ => [ev]
  | None => []
  end.

(** The final diagnostic. *)
Definition foundDiagnostic (newEntityRefs : list string) : Event :=
  Log debug ("Found catalog membership: " +:+ Js.join newEntityRefs).

(** The spec's words for the deduplication: every string once, at the
    place of its first occurrence. *)
Fixpoint dedupFirst (xs : list string) : list string :=
  match xs with
  | [] => []
  | x :: xs' =>
      x :: List.filter (fun y => negb (String.eqb x y)) (dedupFirst xs')
  end.

(** The spec's words for the extraction: scan the relation list of every
    returned entity and collect the target of every relation whose type is
    "memberOf". *)
Fixpoint collectMemberOf (rs : list EntityRelation) : list EntityName :=
  match rs with
  | [] => []
  | r :: rs' =>
      if String.eqb (type r) "memberOf"
      then target r :: collectMemberOf rs'
      else collectMemberOf rs'
  end.

Definition membershipTargets (entities : list Entity) : list EntityName :=
  concat (map (fun e => collectMemberOf (default [] (relations e))) entities).

(** The spec's words for the result: the canonical strings of the parsed
    inputs, then those of the membership targets, deduplicated. *)
Definition membershipUnion (refs : list string) (entities : list Entity)
  : list string :=
  dedupFirst
    (map stringifyEntityRef (parsedRefs refs)
     ++ map stringifyEntityRef (membershipTargets entities)).

(** A string is lower-cased when lower-casing leaves it alone. *)
Definition lowerCased (s : string) : Prop := Js.toLocaleLowerCase s = s.

(** A fully-qualified canonical string: lower-cased, and of the form
    [kind:namespace/name] with three segments (non-empty, free of the two
    separators). *)
Definition fullyQualified (s : string) : Prop :=
  lowerCased s /\
  exists k ns n : string,
    segment k = true /\ segment ns = true /\ segment n = true
    /\ s = k +:+ ":" +:+ ns +:+ "/" +:+ n.

(** The calls to the collaborators in a trace, and the catalog queries
    among them. *)
Definition isCall (ev : Event) : bool :=
  match ev with
  | Log _ _ => false
  | _ => true
  end.

Definition calls (t : list Event) : list Event := List.filter isCall t.

Definition isQuery (ev : Event) : bool :=
  match ev with
  | GetEntities _ _ => true
  | _ => false
  end.

Definition catalogQueries (t : list Event) : list Event :=
  List.filter isQuery t.

(** The requests for a token in a trace. *)
Definition isTokenRequest (ev : Event) : bool :=
  match ev with
  | GetToken => true
  | _ => false
  end.

Definition tokenRequests (t : list Event) : list Event :=
  List.filter isTokenRequest t.

(** The diagnostics in a trace: what was said to the logger. *)
Definition diagnostics (t : list Event) : list Event :=
  List.filter (fun ev => negb (isCall ev)) t.

Definition isWarning (ev : Event) : bool :=
  match ev with
  | Log warn _ => true
  | _ => false
  end.

Definition warnings (t : list Event) : list Event := List.filter isWarning t.

(* ===================================================================== *)
(** ** Collaborators for the examples *)
(* ===================================================================== *)

Module Fixture.

Definition admins : EntityName := mkEntityName "group" "default" "admins".

Definition alice : Entity :=
  mkEntity "User" (mkMeta "alice" None {["email" := "a@example.com"]})
    (Some [mkRelation "ownerOf" (mkEntityName "component" "default" "web");
           mkRelation "memberOf" admins]).

Definition alice2 : Entity :=
  mkEntity "User" (mkMeta "alice2" (Some "default")
                     {["email" := "a@example.com"]}) None.

(** An entity whose "memberOf" relation points at a target with an empty
    kind, the namespace [:] and an empty name. *)
Definition stray : Entity :=
  mkEntity "User" (mkMeta "stray" None ∅)
    (Some [mkRelation "memberOf" (mkEntityName "" ":" "")]).

(** A token manager that always hands out the same token. *)
Definition tokens : TokenManager unit string :=
  mkTokenManager (fun w => (inr "service-token", w)).

(** A token manager whose promise rejects. *)
Definition noTokens : TokenManager unit string :=
  mkTokenManager (fun w => (inl "token service down", w)).

(** A catalog that answers every query with the same items. *)
Definition catalog (items : list Entity) : CatalogApi unit string :=
  mkCatalogApi (fun _ _ w => (inr items, w)).

(** A catalog whose promise rejects. *)
Definition noCatalog : CatalogApi unit string :=
  mkCatalogApi (fun _ _ w => (inl "catalog down", w)).

Definition client (items : list Entity) : CatalogIdentityClient unit string :=
  mkClient (catalog items) tokens.

Definition start : State unit := mkState tt [].

End Fixture.

(* ===================================================================== *)
(** ** Examples *)
(* ===================================================================== *)

Example parse_alice :
  normalize "alice" = Some (mkEntityName "user" "default" "alice").
Proof. reflexivity. Qed.

Example parse_bad :
  normalize "::/" = None /\ normalize "" = None /\ normalize "a/b:c" = None
  /\ normalize ":a" = None /\ normalize "a:" = None /\ normalize "k:/n" = None.
Proof. repeat split; reflexivity. Qed.

Example parse_partial :
  normalize "Ns/Name" = Some (mkEntityName "user" "ns" "name")
  /\ normalize "Kind:Name" = Some (mkEntityName "kind" "default" "name").
Proof. split; reflexivity. Qed.

Example set_from_order :
  Js.Set_from ["b"; "a"; "b"; "c"; "a"] = ["b"; "a"; "c"]
  /\ dedupFirst ["b"; "a"; "b"; "c"; "a"] = ["b"; "a"; "c"].
Proof. split; reflexivity. Qed.

Example resolve_alice :
  resolveCatalogMembership (Fixture.client [Fixture.alice])
    (mkMemberClaimQuery ["User:Default/Alice"; "::/"] (Some WinstonLogger))
    Fixture.start
  = (Ok ["user:default/alice"; "group:default/admins"],
     mkState tt
       [Log warn "Failed to parse entityRef from ::/, ignoring";
        GetToken;
        GetEntities
          (FilterArray
             [{[ "kind" := "user"; "metadata.namespace" := "default";
                 "metadata.name" := "alice" ]}])
          "service-token";
        Log debug "Entities not found for refs ";
        Log debug
          "Found catalog membership: user:default/alice,group:default/admins"]).
Proof. vm_compute. reflexivity. Qed.

(* ===================================================================== *)
(** ** Strings: lower-casing and splitting *)
(* ===================================================================== *)

Lemma append_cons (a : ascii) (s t : string) :
  String a s +:+ t = String a (s +:+ t).
Proof. reflexivity. Qed.

Lemma append_nil (t : string) : "" +:+ t = t.
Proof. reflexivity. Qed.

Ltac each_ascii c :=
  destruct c as [[] [] [] [] [] [] [] []]; vm_compute; reflexivity.

Lemma lower_ascii_idem (c : ascii) :
  Js.lower_ascii (Js.lower_ascii c) = Js.lower_ascii c.
Proof. each_ascii c. Qed.

Lemma toLower_idem (s : string) :
  Js.toLocaleLowerCase (Js.toLocaleLowerCase s) = Js.toLocaleLowerCase s.
Proof.
  induction s as [|c s IH]; simpl; [reflexivity|].
  now rewrite lower_ascii_idem, IH.
Qed.

Lemma toLower_app (s t : string) :
  Js.toLocaleLowerCase (s +:+ t)
  = Js.toLocaleLowerCase s +:+ Js.toLocaleLowerCase t.
Proof.
  induction s as [|c s IH]; [reflexivity|].
  rewrite append_cons. simpl. rewrite IH. reflexivity.
Qed.

(** Splitting at a separator that the left part does not contain. *)
Lemma split_at_app (c : ascii) (l r : string) :
  is_sep c = true -> has_sep l = false ->
  split_at c (l +:+ String c r) = Some (l, r).
Proof.
  intros Hc. induction l as [|a l IH]; intros Hl.
  - rewrite append_nil. simpl. now rewrite Ascii.eqb_refl.
  - simpl in Hl. apply orb_false_iff in Hl as [Ha Hl].
    rewrite append_cons. simpl.
    destruct (Ascii.eqb a c) eqn:E.
    + apply Ascii.eqb_eq in E. congruence.
    + now rewrite (IH Hl).
Qed.

(** The two parts of a lower-cased string are lower-cased. *)
Lemma split_at_lowerCased (c : ascii) (s l r : string) :
  lowerCased s -> split_at c s = Some (l, r) -> lowerCased l /\ lowerCased r.
Proof.
  unfold lowerCased. revert l r.
  induction s as [|a s IH]; intros l r Hs Hsplit; [discriminate|].
  simpl in Hs. injection Hs as Ha Hs'. simpl in Hsplit.
  destruct (Ascii.eqb a c).
  - injection Hsplit as <- <-. now split.
  - destruct (split_at c s) as [[l' r']|] eqn:E; [|discriminate].
    injection Hsplit as <- <-. destruct (IH l' r' Hs' eq_refl) as [Hl Hr].
    split; [|exact Hr]. simpl. now rewrite Ha, Hl.
Qed.

Lemma segment_has_sep (s : string) : segment s = true -> has_sep s = false.
Proof.
  unfold segment. intros H. apply andb_true_iff in H as [_ H].
  now apply negb_true_iff in H.
Qed.

(** Parsing the text [k:ns/n] made of three segments gives back the three
    segments, whatever the defaults. *)
Lemma parse_of_segments (k ns n : string) (ctx : Context) :
  segment k = true -> segment ns = true -> segment n = true ->
  parseEntityRef (k +:+ ":" +:+ ns +:+ "/" +:+ n) ctx
  = Some (mkEntityName k ns n).
Proof.
  intros Hk Hns Hn. unfold parseEntityRef.
  change (k +:+ ":" +:+ ns +:+ "/" +:+ n)
    with (k +:+ String ":" (ns +:+ String "/" n)).
  rewrite (split_at_app ":" k _ eq_refl (segment_has_sep _ Hk)).
  rewrite (split_at_app "/" ns _ eq_refl (segment_has_sep _ Hns)).
  simpl. now rewrite Hk, Hns, Hn.
Qed.

(** What a successful parse says about its result. *)
Lemma parse_segments (s : string) (ctx : Context) (r : EntityName) :
  segment (defaultKind ctx) = true -> segment (defaultNamespace ctx) = true ->
  parseEntityRef s ctx = Some r ->
  segment (kind r) = true /\ segment (namespace r) = true
  /\ segment (name r) = true.
Proof.
  intros Hdk Hdn. unfold parseEntityRef.
  destruct (split_at ":" s) as [[k rest]|];
    destruct (split_at "/" _) as [[ns n]|]; simpl;
    intros H;
    repeat match type of H with
      | context [segment ?x] => destruct (segment x) eqn:?; simpl in H
      end; try discriminate; injection H as <-; simpl; auto.
Qed.

Lemma parse_lowerCased (s : string) (ctx : Context) (r : EntityName) :
  lowerCased (defaultKind ctx) -> lowerCased (defaultNamespace ctx) ->
  lowerCased s -> parseEntityRef s ctx = Some r ->
  lowerCased (kind r) /\ lowerCased (namespace r) /\ lowerCased (name r).
Proof.
  intros Hdk Hdn Hs. unfold parseEntityRef.
  destruct (split_at ":" s) as [[k rest]|] eqn:E1.
  - destruct (split_at_lowerCased _ _ _ _ Hs E1) as [Hk Hrest].
    destruct (split_at "/" rest) as [[ns n]|] eqn:E2.
    + destruct (split_at_lowerCased _ _ _ _ Hrest E2) as [Hns Hn].
      destruct (_ && _); [|discriminate]. injection 1 as <-. simpl. auto.
    + destruct (_ && _); [|discriminate]. injection 1 as <-. simpl. auto.
  - destruct (split_at "/" s) as [[ns n]|] eqn:E2.
    + destruct (split_at_lowerCased _ _ _ _ Hs E2) as [Hns Hn].
      destruct (_ && _); [|discriminate]. injection 1 as <-. simpl. auto.
    + destruct (_ && _); [|discriminate]. injection 1 as <-. simpl. auto.
Qed.

Lemma normalize_wf (raw : string) (r : EntityName) :
  normalize raw = Some r ->
  (segment (kind r) = true /\ segment (namespace r) = true
   /\ segment (name r) = true)
  /\ (lowerCased (kind r) /\ lowerCased (namespace r) /\ lowerCased (name r)).
Proof.
  unfold normalize. intros H. split.
  - eapply parse_segments; [| |exact H]; reflexivity.
  - eapply parse_lowerCased; [| | |exact H];
      [reflexivity|reflexivity|apply toLower_idem].
Qed.

Lemma stringify_lowerCased (r : EntityName) :
  lowerCased (stringifyEntityRef r).
Proof.
  unfold lowerCased, stringifyEntityRef.
  rewrite !toLower_app, !toLower_idem. reflexivity.
Qed.

(* ===================================================================== *)
(** ** Normalization *)
(* ===================================================================== *)

(** C4. Normalization does not see the case of its input and fills in the
    defaults: two raw references that agree up to case normalize alike, in
    particular "Group:Default/Admins" and "group:default/admins", and
    "alice" normalizes to the reference of kind "user" in namespace
    "default", whose canonical form is "user:default/alice". *)
Theorem normalize_case_insensitive_defaults :
  (forall s t : string,
      Js.toLocaleLowerCase s = Js.toLocaleLowerCase t ->
      normalize s = normalize t)
  /\ normalize "Group:Default/Admins" = normalize "group:default/admins"
  /\ normalize "Group:Default/Admins"
     = Some (mkEntityName "group" "default" "admins")
  /\ normalize "alice" = Some (mkEntityName "user" "default" "alice")
  /\ stringifyEntityRef <$> normalize "alice" = Some "user:default/alice".
Proof.
  split; [|repeat split; reflexivity].
  intros s t H. unfold normalize. now rewrite H.
Qed.

Lemma normalize_case_insensitive_witness :
  normalize "User:DEFAULT/Alice" = normalize "uSER:default/aLICE".
Proof.
  apply (proj1 normalize_case_insensitive_defaults). reflexivity.
Defined.

(** The canonical string of a normalized reference parses back to it. *)
Lemma parse_stringify_normalized (raw : string) (r : EntityName) :
  normalize raw = Some r ->
  (forall ctx, parseEntityRef (stringifyEntityRef r) ctx = Some r)
  /\ normalize (stringifyEntityRef r) = Some r.
Proof.
  intros H. destruct (normalize_wf raw r H) as [(Hk & Hns & Hn) (Lk & Lns & Ln)].
  assert (Hparse : forall ctx, parseEntityRef (stringifyEntityRef r) ctx = Some r).
  { intros ctx. unfold stringifyEntityRef. rewrite Lk, Lns, Ln.
    rewrite (parse_of_segments _ _ _ ctx Hk Hns Hn). now destruct r. }
  split; [exact Hparse|].
  unfold normalize. rewrite stringify_lowerCased. apply Hparse.
Qed.

(** C5. Normalization is idempotent: when a raw reference normalizes to the
    reference [r], the canonical string of [r] normalizes to [r] again (and
    parses to [r] even without the lower-casing and whatever the defaults),
    so canonicalizing a canonical string gives the same string. *)
Theorem normalize_idempotent (raw : string) (r : EntityName) :
  normalize raw = Some r ->
  normalize (stringifyEntityRef r) = Some r
  /\ (forall ctx, parseEntityRef (stringifyEntityRef r) ctx = Some r)
  /\ stringifyEntityRef <$> normalize (stringifyEntityRef r)
     = Some (stringifyEntityRef r).
Proof.
  intros H. destruct (parse_stringify_normalized raw r H) as [Hparse Hnorm].
  split; [exact Hnorm|]. split; [exact Hparse|]. now rewrite Hnorm.
Qed.

Lemma normalize_idempotent_witness :
  normalize "Group:Default/Admins"
  = Some (mkEntityName "group" "default" "admins")
  /\ normalize (stringifyEntityRef (mkEntityName "group" "default" "admins"))
     = Some (mkEntityName "group" "default" "admins").
Proof.
  split; [reflexivity|].
  apply (normalize_idempotent "Group:Default/Admins"). reflexivity.
Defined.

(* ===================================================================== *)
(** ** The monad *)
(* ===================================================================== *)

Section MonadFacts.
Context {W Fault : Type}.

Lemma bind_Ok {A B} (m : M W Fault A) (k : A -> M W Fault B) st a st' :
  m st = (Ok a, st') -> (m ≫= k) st = k a st'.
Proof. unfold mbind, M_bind. now intros ->. Qed.

Lemma bind_Throw {A B} (m : M W Fault A) (k : A -> M W Fault B) st e st' :
  m st = (Throw e, st') -> (m ≫= k) st = (Throw e, st').
Proof. unfold mbind, M_bind. now intros ->. Qed.

Lemma getToken_Ok (self : CatalogIdentityClient W Fault) st token w1 :
  getToken (tokenManager self) (world st) = (inr token, w1) ->
  await_getToken self st = (Ok token, mkState w1 (trace st ++ [GetToken])).
Proof. unfold await_getToken. now intros ->. Qed.

Lemma getToken_Throw (self : CatalogIdentityClient W Fault) st fault w1 :
  getToken (tokenManager self) (world st) = (inl fault, w1) ->
  await_getToken self st
  = (Throw (CollaboratorFault fault), mkState w1 (trace st ++ [GetToken])).
Proof. unfold await_getToken. now intros ->. Qed.

Lemma getEntities_Ok (self : CatalogIdentityClient W Fault) filter token
    st items w2 :
  getEntities (catalogApi self) filter token (world st) = (inr items, w2) ->
  await_getEntities self filter token st
  = (Ok items, mkState w2 (trace st ++ [GetEntities filter token])).
Proof. unfold await_getEntities. now intros ->. Qed.

Lemma getEntities_Throw (self : CatalogIdentityClient W Fault) filter token
    st fault w2 :
  getEntities (catalogApi self) filter token (world st) = (inl fault, w2) ->
  await_getEntities self filter token st
  = (Throw (CollaboratorFault fault),
     mkState w2 (trace st ++ [GetEntities filter token])).
Proof. unfold await_getEntities. now intros ->. Qed.

End MonadFacts.

(* ===================================================================== *)
(** ** findUser *)
(* ===================================================================== *)

Lemma catalogQueries_app (t1 t2 : list Event) :
  catalogQueries (t1 ++ t2) = catalogQueries t1 ++ catalogQueries t2.
Proof. apply List.filter_app. Qed.

Lemma calls_app (t1 t2 : list Event) : calls (t1 ++ t2) = calls t1 ++ calls t2.
Proof. apply List.filter_app. Qed.

Lemma warnings_app (t1 t2 : list Event) :
  warnings (t1 ++ t2) = warnings t1 ++ warnings t2.
Proof. apply List.filter_app. Qed.

(** The loop of assignments builds the union of the re-keyed annotations
    and the initial literal. *)
Lemma fold_insert_union (l : list (string * string)) (m : gmap string string) :
  NoDup (l.*1) ->
  fold_left
    (fun (filter : gmap string string) '(key, value) =>
       <["metadata.annotations." +:+ key := value]> filter) l m
  = list_to_map (prod_map (String.app "metadata.annotations.") id <$> l) ∪ m.
Proof.
  revert m. induction l as [|[k v] l IH]; intros m Hnd.
  - simpl. now rewrite (left_id_L ∅ (∪)).
  - apply NoDup_cons in Hnd as [Hk Hnd]. simpl. rewrite (IH _ Hnd).
    rewrite <- insert_union_l. apply eq_sym, insert_union_r.
    apply not_elem_of_list_to_map. rewrite <- list_fmap_compose.
    intros Hin. apply list_elem_of_fmap in Hin as [[k' v'] [Heq Hin]].
    simpl in Heq. apply (inj (String.app _)) in Heq. subst k'.
    apply Hk. apply list_elem_of_fmap. now exists (k, v').
Qed.

Lemma userFilter_union (query : UserQuery) :
  userFilter query
  = kmap (String.app "metadata.annotations.") (annotations query)
    ∪ {["kind" := "user"]}.
Proof.
  unfold userFilter. rewrite fold_insert_union; [reflexivity|].
  apply NoDup_fst_map_to_list.
Qed.

Lemma kind_not_annotation (k : string) :
  "kind" <> "metadata.annotations." +:+ k.
Proof. discriminate. Qed.

Lemma userFilter_kind (query : UserQuery) :
  userFilter query !! "kind" = Some "user".
Proof.
  rewrite userFilter_union, lookup_union_r; [apply lookup_singleton_eq|].
  apply lookup_kmap_None; [apply _|]. intros k Hk.
  now apply kind_not_annotation in Hk.
Qed.

Lemma userFilter_annotation (query : UserQuery) (k : string) :
  userFilter query !! ("metadata.annotations." +:+ k)
  = annotations query !! k.
Proof.
  rewrite userFilter_union, lookup_union.
  rewrite (lookup_kmap (String.app "metadata.annotations.")).
  rewrite lookup_singleton_ne; [|apply kind_not_annotation].
  now destruct (annotations query !! k).
Qed.

Lemma userFilter_only (query : UserQuery) (key v : string) :
  userFilter query !! key = Some v ->
  (key = "kind" /\ v = "user")
  \/ exists k, key = "metadata.annotations." +:+ k
               /\ annotations query !! k = Some v.
Proof.
  rewrite userFilter_union. intros H.
  apply lookup_union_Some_raw in H as [H|[_ H]].
  - right. now apply (lookup_kmap_Some (String.app _)) in H.
  - left. now apply lookup_singleton_Some in H.
Qed.

Lemma findUser_run {W Fault} (self : CatalogIdentityClient W Fault)
    (query : UserQuery) (st : State W) token w1 items w2 :
  getToken (tokenManager self) (world st) = (inr token, w1) ->
  getEntities (catalogApi self) (FilterRecord (userFilter query)) token w1
  = (inr items, w2) ->
  findUser self query st
  = (match items with
     | [] => Throw (NotFoundError "User not found")
     | [e] => Ok e
     | _ => Throw (ConflictError "User lookup resulted in multiple matches")
     end,
     mkState w2
       (trace st
        ++ [GetToken; GetEntities (FilterRecord (userFilter query)) token])).
Proof.
  intros Htok Hitems. unfold findUser.
  rewrite (bind_Ok _ _ _ _ _ (getToken_Ok self st token w1 Htok)).
  rewrite (bind_Ok _ _ _ items (mkState w2 ((trace st ++ [GetToken])
            ++ [GetEntities (FilterRecord (userFilter query)) token]))).
  2: { now apply getEntities_Ok. }
  rewrite <- app_assoc. simpl.
  destruct items as [|e [|e' items]]; reflexivity.
Qed.

(** C1. When the catalog query of [findUser] yields exactly one item, that
    item is returned; when it yields none, the call fails with NotFound;
    when it yields two or more, the call fails with Conflict.  A value is
    returned only if it is the single item of the answer. *)
Theorem findUser_cardinality {W Fault} (self : CatalogIdentityClient W Fault)
    (query : UserQuery) (st : State W) token w1 items w2 :
  getToken (tokenManager self) (world st) = (inr token, w1) ->
  getEntities (catalogApi self) (FilterRecord (userFilter query)) token w1
  = (inr items, w2) ->
  (forall e, items = [e] -> fst (findUser self query st) = Ok e)
  /\ (items = [] ->
      fst (findUser self query st) = Throw (NotFoundError "User not found"))
  /\ (2 <= length items ->
      fst (findUser self query st)
      = Throw (ConflictError "User lookup resulted in multiple matches"))
  /\ (forall e, fst (findUser self query st) = Ok e -> items = [e]).
Proof.
  intros Htok Hitems. rewrite (findUser_run self query st _ _ _ _ Htok Hitems).
  simpl. repeat split.
  - now intros e ->.
  - now intros ->.
  - destruct items as [|e [|e' items]]; simpl; [lia|lia|reflexivity].
  - intros e. destruct items as [|e1 [|e2 items]]; simpl; congruence.
Qed.

Lemma findUser_cardinality_witness :
  fst (findUser (Fixture.client [Fixture.alice])
         (mkUserQuery {["email" := "a@example.com"]}) Fixture.start)
  = Ok Fixture.alice
  /\ fst (findUser (Fixture.client [])
            (mkUserQuery {["email" := "a@example.com"]}) Fixture.start)
     = Throw (NotFoundError "User not found")
  /\ fst (findUser (Fixture.client [Fixture.alice; Fixture.alice2])
            (mkUserQuery {["email" := "a@example.com"]}) Fixture.start)
     = Throw (ConflictError "User lookup resulted in multiple matches").
Proof.
  split; [|split].
  - apply (proj1 (findUser_cardinality (Fixture.client [Fixture.alice])
                    (mkUserQuery {["email" := "a@example.com"]}) Fixture.start
                    "service-token" tt [Fixture.alice] tt eq_refl eq_refl)).
    reflexivity.
  - apply (proj1 (proj2 (findUser_cardinality (Fixture.client [])
                    (mkUserQuery {["email" := "a@example.com"]}) Fixture.start
                    "service-token" tt [] tt eq_refl eq_refl))).
    reflexivity.
  - apply (proj1 (proj2 (proj2 (findUser_cardinality
                    (Fixture.client [Fixture.alice; Fixture.alice2])
                    (mkUserQuery {["email" := "a@example.com"]}) Fixture.start
                    "service-token" tt [Fixture.alice; Fixture.alice2] tt
                    eq_refl eq_refl)))).
    simpl. lia.
Defined.

Lemma userFilter_size (query : UserQuery) :
  size (userFilter query) = S (size (annotations query)).
Proof.
  rewrite userFilter_union, map_size_disj_union.
  - rewrite map_size_singleton. unfold kmap.
    rewrite map_size_list_to_map.
    + rewrite length_fmap, length_map_to_list. lia.
    + rewrite <- list_fmap_compose.
      change (fst ∘ prod_map (String.app "metadata.annotations.") id)
        with ((String.app "metadata.annotations.") ∘ (@fst string string)).
      rewrite list_fmap_compose. apply NoDup_fmap_2; [apply _|].
      apply NoDup_fst_map_to_list.
  - apply map_disjoint_singleton_r.
    apply lookup_kmap_None; [apply _|]. intros k Hk.
    now apply kind_not_annotation in Hk.
Qed.

(** C6. The filter [findUser] builds holds the entry kind = "user" and, for
    each annotation of the query, the entry metadata.annotations.<key> =
    <value>, and nothing else; the catalog is queried once, with that
    filter, as soon as the token has been obtained (and not at all when
    the token manager fails). *)
Theorem findUser_filter_and_query {W Fault}
    (self : CatalogIdentityClient W Fault) (query : UserQuery) (st : State W) :
  userFilter query !! "kind" = Some "user"
  /\ (forall k, userFilter query !! ("metadata.annotations." +:+ k)
                = annotations query !! k)
  /\ (forall key v, userFilter query !! key = Some v ->
        (key = "kind" /\ v = "user")
        \/ exists k, key = "metadata.annotations." +:+ k
                     /\ annotations query !! k = Some v)
  /\ size (userFilter query) = S (size (annotations query))
  /\ catalogQueries (trace (snd (findUser self query st)))
     = catalogQueries (trace st)
       ++ match getToken (tokenManager self) (world st) with
          | (inr token, _) =>
              [GetEntities (FilterRecord (userFilter query)) token]
          | (inl _, _) => []
          end.
Proof.
  split; [apply userFilter_kind|]. split; [apply userFilter_annotation|].
  split; [apply userFilter_only|]. split; [apply userFilter_size|].
  destruct (getToken (tokenManager self) (world st)) as [[fault|token] w1] eqn:Htok.
  - unfold findUser.
    rewrite (bind_Throw _ _ _ _ _ (getToken_Throw self st fault w1 Htok)).
    simpl. rewrite catalogQueries_app. reflexivity.
  - destruct (getEntities (catalogApi self) (FilterRecord (userFilter query))
                token w1) as [[fault|items] w2] eqn:Hitems.
    + unfold findUser.
      rewrite (bind_Ok _ _ _ _ _ (getToken_Ok self st token w1 Htok)).
      rewrite (bind_Throw _ _ _ (CollaboratorFault fault)
                 (mkState w2 ((trace st ++ [GetToken])
                    ++ [GetEntities (FilterRecord (userFilter query)) token]))).
      2: { now apply getEntities_Throw. }
      simpl. rewrite !catalogQueries_app. simpl. now rewrite app_nil_r.
    + rewrite (findUser_run self query st _ _ _ _ Htok Hitems). simpl.
      rewrite catalogQueries_app. reflexivity.
Qed.

(* ===================================================================== *)
(** ** Deduplication and extraction *)
(* ===================================================================== *)

Lemma filter_filter {A} (p q : A -> bool) (l : list A) :
  List.filter p (List.filter q l) = List.filter (fun x => q x && p x) l.
Proof.
  induction l as [|x l IH]; [reflexivity|]. simpl.
  destruct (q x); simpl; [destruct (p x)|]; now rewrite IH.
Qed.

Lemma includes_In (xs : list string) (s : string) :
  Js.includes xs s = true <-> In s xs.
Proof.
  unfold Js.includes. rewrite existsb_exists. split.
  - intros [x [Hin Heq]]. apply String.eqb_eq in Heq. now subst.
  - intros Hin. exists s. split; [exact Hin|apply String.eqb_refl].
Qed.

Lemma includes_app (xs ys : list string) (s : string) :
  Js.includes (xs ++ ys) s = Js.includes xs s || Js.includes ys s.
Proof. apply existsb_app. Qed.

(** The set built by successive [add]s, in terms of the elements already
    there. *)
Lemma Set_from_acc (xs acc : list string) :
  fold_left Js.Set_add xs acc
  = acc ++ List.filter (fun y => negb (Js.includes acc y)) (dedupFirst xs).
Proof.
  revert acc. induction xs as [|x xs IH]; intros acc; simpl.
  - now rewrite app_nil_r.
  - rewrite IH. unfold Js.Set_add. destruct (Js.includes acc x) eqn:E; simpl.
    + f_equal. rewrite filter_filter. apply List.filter_ext. intros y.
      destruct (String.eqb x y) eqn:Exy; [|reflexivity].
      apply String.eqb_eq in Exy. subst y. now rewrite E.
    + rewrite <- app_assoc. simpl. f_equal. f_equal.
      rewrite filter_filter. apply List.filter_ext. intros y.
      rewrite includes_app. simpl. rewrite orb_false_r.
      rewrite (String.eqb_sym y x).
      now destruct (Js.includes acc y), (String.eqb x y).
Qed.

Lemma Set_from_dedupFirst (xs : list string) :
  Js.Set_from xs = dedupFirst xs.
Proof.
  unfold Js.Set_from. rewrite Set_from_acc. simpl.
  induction (dedupFirst xs) as [|y l IH]; [reflexivity|]. simpl. now f_equal.
Qed.

Lemma dedupFirst_In (xs : list string) (s : string) :
  In s (dedupFirst xs) <-> In s xs.
Proof.
  induction xs as [|x xs IH]; [reflexivity|]. simpl.
  rewrite List.filter_In, IH. split.
  - intros [H|[H _]]; auto.
  - intros [H|H]; [now left|].
    destruct (String.eqb x s) eqn:E.
    + left. now apply String.eqb_eq.
    + right. now split.
Qed.

Lemma dedupFirst_NoDup (xs : list string) : NoDup (dedupFirst xs).
Proof.
  induction xs as [|x xs IH]; simpl; constructor.
  - rewrite list_elem_of_In, List.filter_In. intros [_ H].
    now rewrite String.eqb_refl in H.
  - now apply NoDup_ListNoDup, List.NoDup_filter, NoDup_ListNoDup.
Qed.

(** Deduplicating a concatenation: the first part keeps its place. *)
Lemma dedupFirst_app (xs ys : list string) :
  dedupFirst (xs ++ ys)
  = dedupFirst xs
    ++ List.filter (fun y => negb (Js.includes xs y)) (dedupFirst ys).
Proof.
  rewrite <- (Set_from_dedupFirst (xs ++ ys)). unfold Js.Set_from.
  rewrite fold_left_app. fold (Js.Set_from xs).
  rewrite Set_from_dedupFirst, Set_from_acc. f_equal.
  apply List.filter_ext. intros y. f_equal. apply eq_true_iff_eq.
  rewrite !includes_In. apply dedupFirst_In.
Qed.

Lemma memberOfTargets_collect (e : Entity) :
  memberOfTargets e = collectMemberOf (default [] (relations e)).
Proof.
  unfold memberOfTargets. destruct (relations e) as [rs|]; [|reflexivity].
  simpl. induction rs as [|r rs IH]; [reflexivity|]. simpl.
  unfold RELATION_MEMBER_OF in *.
  destruct (String.eqb (type r) "memberOf"); simpl; now rewrite IH.
Qed.

Lemma flat_map_memberOf (entities : list Entity) :
  flat_map memberOfTargets entities = membershipTargets entities.
Proof.
  unfold membershipTargets. rewrite List.flat_map_concat_map.
  f_equal. apply List.map_ext. apply memberOfTargets_collect.
Qed.

Lemma collectMemberOf_In (rs : list EntityRelation) (t : EntityName) :
  In t (collectMemberOf rs)
  <-> exists r, In r rs /\ type r = "memberOf" /\ target r = t.
Proof.
  induction rs as [|r rs IH]; simpl.
  - split; [tauto|]. now intros [r [[] _]].
  - destruct (String.eqb (type r) "memberOf") eqn:E; simpl; rewrite IH.
    + apply String.eqb_eq in E. split.
      * intros [H|[r' (Hin & Ht & Htg)]]; [exists r|exists r']; auto.
      * intros [r' ([H|Hin] & Ht & Htg)]; [left; now subst|right; exists r'; auto].
    + apply String.eqb_neq in E. split.
      * intros [r' (Hin & Ht & Htg)]. exists r'; auto.
      * intros [r' ([H|Hin] & Ht & Htg)]; [now subst|exists r'; auto].
Qed.

Lemma membershipTargets_In (entities : list Entity) (t : EntityName) :
  In t (membershipTargets entities)
  <-> exists e rs r, In e entities /\ relations e = Some rs /\ In r rs
                     /\ type r = "memberOf" /\ target r = t.
Proof.
  unfold membershipTargets. rewrite <- List.flat_map_concat_map, in_flat_map.
  split.
  - intros [e [Hin Ht]]. apply collectMemberOf_In in Ht as [r (Hr & Hty & Htg)].
    destruct (relations e) as [rs|] eqn:E; simpl in Hr; [|contradiction].
    exists e, rs, r. auto.
  - intros (e & rs & r & Hin & Hrs & Hr & Hty & Htg). exists e.
    split; [exact Hin|]. rewrite Hrs. simpl. apply collectMemberOf_In.
    exists r. auto.
Qed.

(* ===================================================================== *)
(** ** resolveCatalogMembership: what one call does *)
(* ===================================================================== *)

Lemma parseWarnings_cons (logger : option Logger) (ref : string)
    (refs : list string) :
  parseWarnings logger (ref :: refs)
  = parseWarnings logger [ref] ++ parseWarnings logger refs.
Proof.
  destruct logger; [|reflexivity]. simpl. now rewrite app_nil_r.
Qed.

Lemma parseWarnings_app (logger : option Logger) (refs1 refs2 : list string) :
  parseWarnings logger (refs1 ++ refs2)
  = parseWarnings logger refs1 ++ parseWarnings logger refs2.
Proof.
  destruct logger; [|reflexivity]. simpl. apply List.flat_map_app.
Qed.

Lemma parseWarnings_one (logger : option Logger) (ref : string) :
  parseWarnings logger [ref]
  = match normalize ref with
    | Some _ => []
    | None =>
        emitted logger
          (Log warn ("Failed to parse entityRef from " +:+ ref +:+ ", ignoring"))
    end.
Proof.
  destruct logger; simpl; [|now destruct (normalize ref)].
  now rewrite app_nil_r.
Qed.

Lemma omap_id_map_normalize (refs : list string) :
  omap id (map normalize refs) = parsedRefs refs.
Proof.
  unfold parsedRefs. induction refs as [|ref refs IH]; [reflexivity|].
  change (map normalize (ref :: refs)) with (normalize ref :: map normalize refs).
  change (omap id (normalize ref :: map normalize refs))
    with (match normalize ref with
          | Some r => r :: omap id (map normalize refs)
          | None => omap id (map normalize refs)
          end).
  change (omap normalize (ref :: refs))
    with (match normalize ref with
          | Some r => r :: omap normalize refs
          | None => omap normalize refs
          end).
  now rewrite IH.
Qed.

Section Resolve.
Context {W Fault : Type}.
Implicit Types (self : CatalogIdentityClient W Fault) (st : State W).

Lemma parseOne_run (logger : option Logger) (ref : string) st :
  parseOne (W:=W) (Fault:=Fault) logger ref st
  = (Ok (normalize ref),
     mkState (world st) (trace st ++ parseWarnings logger [ref])).
Proof.
  unfold parseOne. rewrite parseWarnings_one. fold (normalize ref).
  destruct st as [w t].
  destruct (normalize ref) as [r|]; simpl.
  - now rewrite app_nil_r.
  - destruct logger; simpl; [reflexivity|now rewrite app_nil_r].
Qed.

(** The parsing phase: no collaborator is involved, the world is left
    alone, the references that do not parse are warned about. *)
Lemma mapM_parseOne (logger : option Logger) (refs : list string) st :
  mapM (parseOne (W:=W) (Fault:=Fault) logger) refs st
  = (Ok (map normalize refs),
     mkState (world st) (trace st ++ parseWarnings logger refs)).
Proof.
  revert st. induction refs as [|ref refs IH]; intros st.
  - destruct st as [w t], logger; simpl; now rewrite app_nil_r.
  - change (mapM (parseOne logger) (ref :: refs))
      with (y ← parseOne (W:=W) (Fault:=Fault) logger ref;
            k ← mapM (parseOne logger) refs; mret (y :: k)).
    rewrite (bind_Ok _ _ _ _ _ (parseOne_run logger ref st)).
    rewrite (bind_Ok _ _ _ _ _ (IH _)). simpl.
    now rewrite (parseWarnings_cons logger ref refs), app_assoc.
Qed.

Lemma resolve_run_ok self (query : MemberClaimQuery) st token w1 entities w2 :
  getToken (tokenManager self) (world st) = (inr token, w1) ->
  getEntities (catalogApi self)
    (FilterArray (map refFilter (parsedRefs (entityRefs query)))) token w1
  = (inr entities, w2) ->
  resolveCatalogMembership self query st
  = (Ok (membershipUnion (entityRefs query) entities),
     mkState w2
       (trace st
        ++ parseWarnings (logger query) (entityRefs query)
        ++ [GetToken;
            GetEntities
              (FilterArray (map refFilter (parsedRefs (entityRefs query))))
              token]
        ++ (if Nat.eqb (length (entityRefs query)) (length entities)
            then []
            else emitted (logger query)
                   (missingDiagnostic (entityRefs query) entities))
        ++ emitted (logger query)
             (foundDiagnostic (membershipUnion (entityRefs query) entities)))).
Proof.
  intros Htok Hent. unfold resolveCatalogMembership.
  rewrite (bind_Ok _ _ _ _ _ (mapM_parseOne _ _ st)). cbv zeta.
  rewrite omap_id_map_normalize.
  erewrite bind_Ok; [|apply getToken_Ok; simpl; exact Htok].
  erewrite bind_Ok; [|apply getEntities_Ok; simpl; exact Hent].
  rewrite flat_map_memberOf, map_app, Set_from_dedupFirst.
  fold (membershipUnion (entityRefs query) entities).
  unfold mbind, M_bind, log, mret, M_ret, emit, missingDiagnostic,
    foundDiagnostic.
  destruct (Nat.eqb _ _), (logger query); simpl;
    repeat rewrite <- app_assoc; simpl; reflexivity.
Qed.

Lemma resolve_run_no_token self (query : MemberClaimQuery) st fault w1 :
  getToken (tokenManager self) (world st) = (inl fault, w1) ->
  resolveCatalogMembership self query st
  = (Throw (CollaboratorFault fault),
     mkState w1
       (trace st
        ++ parseWarnings (logger query) (entityRefs query) ++ [GetToken])).
Proof.
  intros Htok. unfold resolveCatalogMembership.
  rewrite (bind_Ok _ _ _ _ _ (mapM_parseOne _ _ st)). cbv zeta.
  erewrite bind_Throw; [|apply getToken_Throw; simpl; exact Htok].
  simpl. now rewrite <- app_assoc.
Qed.

Lemma resolve_run_no_catalog self (query : MemberClaimQuery) st token w1
    fault w2 :
  getToken (tokenManager self) (world st) = (inr token, w1) ->
  getEntities (catalogApi self)
    (FilterArray (map refFilter (parsedRefs (entityRefs query)))) token w1
  = (inl fault, w2) ->
  resolveCatalogMembership self query st
  = (Throw (CollaboratorFault fault),
     mkState w2
       (trace st
        ++ parseWarnings (logger query) (entityRefs query)
        ++ [GetToken;
            GetEntities
              (FilterArray (map refFilter (parsedRefs (entityRefs query))))
              token])).
Proof.
  intros Htok Hent. unfold resolveCatalogMembership.
  rewrite (bind_Ok _ _ _ _ _ (mapM_parseOne _ _ st)). cbv zeta.
  rewrite omap_id_map_normalize.
  erewrite bind_Ok; [|apply getToken_Ok; simpl; exact Htok].
  erewrite bind_Throw; [|apply getEntities_Throw; simpl; exact Hent].
  simpl. repeat rewrite <- app_assoc. reflexivity.
Qed.

End Resolve.

(* ===================================================================== *)
(** ** Reading traces *)
(* ===================================================================== *)

Lemma diagnostics_app (t1 t2 : list Event) :
  diagnostics (t1 ++ t2) = diagnostics t1 ++ diagnostics t2.
Proof. apply List.filter_app. Qed.

Lemma calls_parseWarnings (logger : option Logger) (refs : list string) :
  calls (parseWarnings logger refs) = [].
Proof.
  destruct logger; [|reflexivity]. simpl.
  induction refs as [|ref refs IH]; [reflexivity|]. simpl.
  rewrite calls_app, IH. now destruct (normalize ref).
Qed.

Lemma warnings_parseWarnings (logger : option Logger) (refs : list string) :
  warnings (parseWarnings logger refs) = parseWarnings logger refs.
Proof.
  destruct logger; [|reflexivity]. simpl.
  induction refs as [|ref refs IH]; [reflexivity|]. simpl.
  rewrite warnings_app, IH. now destruct (normalize ref).
Qed.

Lemma calls_emitted_log logger level message :
  calls (emitted logger (Log level message)) = [].
Proof. now destruct logger. Qed.

Lemma warnings_emitted_debug logger message :
  warnings (emitted logger (Log debug message)) = [].
Proof. now destruct logger. Qed.

Lemma warnings_emitted_warn logger message :
  warnings (emitted logger (Log warn message))
  = emitted logger (Log warn message).
Proof. now destruct logger. Qed.

Lemma if_same {A} (b : bool) (x : A) : (if b then x else x) = x.
Proof. now destruct b. Qed.

Lemma calls_if (b : bool) (t : list Event) :
  calls (if b then [] else t) = if b then [] else calls t.
Proof. now destruct b. Qed.

Lemma warnings_if (b : bool) (t : list Event) :
  warnings (if b then [] else t) = if b then [] else warnings t.
Proof. now destruct b. Qed.

Create Rewrite HintDb trace.
#[local] Hint Rewrite calls_app warnings_app diagnostics_app
  calls_parseWarnings warnings_parseWarnings calls_emitted_log
  warnings_emitted_debug warnings_emitted_warn calls_if warnings_if
  @if_same app_nil_r : trace.

Ltac read_trace :=
  unfold missingDiagnostic, foundDiagnostic;
  cbn [logger entityRefs fst snd world trace];
  repeat progress (autorewrite with trace; simpl).

(* ===================================================================== *)
(** ** resolveCatalogMembership: the result *)
(* ===================================================================== *)

Lemma parsedRefs_app (refs1 refs2 : list string) :
  parsedRefs (refs1 ++ refs2) = parsedRefs refs1 ++ parsedRefs refs2.
Proof. apply omap_app. Qed.

Lemma parsedRefs_In (refs : list string) (r : EntityName) :
  In r (parsedRefs refs) <-> exists raw, In raw refs /\ normalize raw = Some r.
Proof.
  unfold parsedRefs. rewrite <- list_elem_of_In, list_elem_of_omap.
  now setoid_rewrite list_elem_of_In.
Qed.

Lemma membershipUnion_In (refs : list string) (entities : list Entity)
    (s : string) :
  In s (membershipUnion refs entities)
  <-> In s (map stringifyEntityRef (parsedRefs refs))
      \/ In s (map stringifyEntityRef (membershipTargets entities)).
Proof. unfold membershipUnion. now rewrite dedupFirst_In, in_app_iff. Qed.

(** C2. When the token and the catalog answer, the call returns the union
    of the canonical strings of the parsed inputs and of the canonical
    strings of the targets of the "memberOf" relations of the returned
    entities (their own relations only), without duplicates, each string at
    the place of its first occurrence, the parsed inputs first and in input
    order. *)
Theorem resolve_returns_union {W Fault} (self : CatalogIdentityClient W Fault)
    (query : MemberClaimQuery) (st : State W) token w1 entities w2 :
  getToken (tokenManager self) (world st) = (inr token, w1) ->
  getEntities (catalogApi self)
    (FilterArray (map refFilter (parsedRefs (entityRefs query)))) token w1
  = (inr entities, w2) ->
  let inputs := map stringifyEntityRef (parsedRefs (entityRefs query)) in
  let targets := map stringifyEntityRef (membershipTargets entities) in
  fst (resolveCatalogMembership self query st)
  = Ok (membershipUnion (entityRefs query) entities)
  /\ membershipUnion (entityRefs query) entities = dedupFirst (inputs ++ targets)
  /\ NoDup (membershipUnion (entityRefs query) entities)
  /\ (forall s, In s (membershipUnion (entityRefs query) entities)
                <-> In s inputs \/ In s targets)
  /\ (forall t, In t (membershipTargets entities)
                <-> exists e rs r, In e entities /\ relations e = Some rs
                                   /\ In r rs /\ type r = "memberOf"
                                   /\ target r = t)
  /\ membershipUnion (entityRefs query) entities
     = dedupFirst inputs
       ++ List.filter (fun s => negb (Js.includes inputs s))
            (dedupFirst targets).
Proof.
  intros Htok Hent inputs targets.
  rewrite (resolve_run_ok self query st _ _ _ _ Htok Hent). simpl.
  split; [reflexivity|]. split; [reflexivity|].
  split; [apply dedupFirst_NoDup|]. split; [apply membershipUnion_In|].
  split; [apply membershipTargets_In|]. apply dedupFirst_app.
Qed.

Lemma resolve_returns_union_witness :
  fst (resolveCatalogMembership (Fixture.client [Fixture.alice])
         (mkMemberClaimQuery ["User:Default/Alice"; "::/"; "alice"] None)
         Fixture.start)
  = Ok ["user:default/alice"; "group:default/admins"].
Proof.
  exact (proj1 (resolve_returns_union (Fixture.client [Fixture.alice])
                  (mkMemberClaimQuery ["User:Default/Alice"; "::/"; "alice"] None)
                  Fixture.start "service-token" tt [Fixture.alice] tt
                  eq_refl eq_refl)).
Defined.

(** A call fails only with what a collaborator failed with. *)
Lemma resolve_Throw_inv {W Fault} (self : CatalogIdentityClient W Fault)
    (query : MemberClaimQuery) (st : State W) (e : Error Fault) :
  fst (resolveCatalogMembership self query st) = Throw e ->
  exists fault, e = CollaboratorFault fault.
Proof.
  destruct (getToken (tokenManager self) (world st)) as [[fault|token] w1] eqn:Htok.
  - rewrite (resolve_run_no_token self query st _ _ Htok). simpl.
    intros [= <-]. now exists fault.
  - destruct (getEntities (catalogApi self)
                (FilterArray (map refFilter (parsedRefs (entityRefs query))))
                token w1) as [[fault|entities] w2] eqn:Hent.
    + rewrite (resolve_run_no_catalog self query st _ _ _ _ Htok Hent). simpl.
      intros [= <-]. now exists fault.
    + now rewrite (resolve_run_ok self query st _ _ _ _ Htok Hent).
Qed.

(** C9, as the code has it.  When the token and the catalog answer, the
    strings of the result are exactly the canonical strings of the parsed
    inputs and of the targets of the "memberOf" relations of the returned
    entities, and all of them are lower-cased.  Those of the parsed inputs
    are fully qualified and normalize back to the reference they come
    from.  Those of the targets are stringified as the catalog supplied
    them, unchecked: a raw input that does not parse is in the result only
    as the canonical string of such a target, and never when the canonical
    string of every target parses. *)
Theorem resolve_result_provenance {W Fault}
    (self : CatalogIdentityClient W Fault) (query : MemberClaimQuery)
    (st : State W) token w1 entities w2 :
  getToken (tokenManager self) (world st) = (inr token, w1) ->
  getEntities (catalogApi self)
    (FilterArray (map refFilter (parsedRefs (entityRefs query)))) token w1
  = (inr entities, w2) ->
  let res := membershipUnion (entityRefs query) entities in
  fst (resolveCatalogMembership self query st) = Ok res
  /\ (forall s,
        In s res
        <-> (exists raw r, In raw (entityRefs query) /\ normalize raw = Some r
                           /\ s = stringifyEntityRef r)
            \/ (exists t, In t (membershipTargets entities)
                          /\ s = stringifyEntityRef t))
  /\ (forall s, In s res -> lowerCased s)
  /\ (forall raw r, In raw (entityRefs query) -> normalize raw = Some r ->
        In (stringifyEntityRef r) res
        /\ fullyQualified (stringifyEntityRef r)
        /\ normalize (stringifyEntityRef r) = Some r)
  /\ (forall raw, In raw (entityRefs query) -> normalize raw = None ->
        In raw res ->
        exists t, In t (membershipTargets entities)
                  /\ raw = stringifyEntityRef t)
  /\ ((forall t, In t (membershipTargets entities) ->
                 normalize (stringifyEntityRef t) <> None) ->
      forall raw, In raw (entityRefs query) -> normalize raw = None ->
                  ~ In raw res).
Proof.
  intros Htok Hent res. subst res.
  rewrite (resolve_run_ok self query st _ _ _ _ Htok Hent). simpl.
  assert (Hprov : forall s,
    In s (membershipUnion (entityRefs query) entities)
    <-> (exists raw r, In raw (entityRefs query) /\ normalize raw = Some r
                       /\ s = stringifyEntityRef r)
        \/ (exists t, In t (membershipTargets entities)
                      /\ s = stringifyEntityRef t)).
  { intros s. rewrite membershipUnion_In, !in_map_iff. split.
    - intros [[r [<- Hr]]|[t [<- Ht]]].
      + left. apply parsedRefs_In in Hr as [raw [Hraw Hnorm]].
        now exists raw, r.
      + right. now exists t.
    - intros [(raw & r & Hraw & Hnorm & ->)|(t & Ht & ->)].
      + left. exists r. split; [reflexivity|].
        apply parsedRefs_In. now exists raw.
      + right. now exists t. }
  assert (Hunparsed : forall raw,
    In raw (entityRefs query) -> normalize raw = None ->
    In raw (membershipUnion (entityRefs query) entities) ->
    exists t, In t (membershipTargets entities) /\ raw = stringifyEntityRef t).
  { intros raw _ Hnone Hin.
    apply Hprov in Hin as [(raw' & r & _ & Hnorm & ->)|Ht]; [|exact Ht].
    destruct (parse_stringify_normalized raw' r Hnorm) as [_ Hback].
    congruence. }
  split; [reflexivity|]. split; [exact Hprov|]. split; [|split; [|split]].
  - intros s Hs.
    apply Hprov in Hs as [(raw & r & _ & _ & ->)|(t & _ & ->)];
      apply stringify_lowerCased.
  - intros raw r Hraw Hnorm. split; [|split].
    + apply Hprov. left. now exists raw, r.
    + split; [apply stringify_lowerCased|].
      destruct (normalize_wf raw r Hnorm) as [(Hk & Hns & Hn) (Lk & Lns & Ln)].
      exists (kind r), (namespace r), (name r).
      repeat split; try assumption.
      unfold stringifyEntityRef. now rewrite Lk, Lns, Ln.
    + apply (parse_stringify_normalized raw r Hnorm).
  - exact Hunparsed.
  - intros Hwf raw Hraw Hnone Hin.
    destruct (Hunparsed raw Hraw Hnone Hin) as (t & Ht & ->).
    now apply (Hwf t Ht).
Qed.

Lemma resolve_result_provenance_witness :
  fst (resolveCatalogMembership (Fixture.client [Fixture.alice])
         (mkMemberClaimQuery ["User:Default/Alice"; "::/"] None) Fixture.start)
  = Ok ["user:default/alice"; "group:default/admins"]
  /\ fullyQualified "user:default/alice".
Proof.
  pose proof (resolve_result_provenance (Fixture.client [Fixture.alice])
                (mkMemberClaimQuery ["User:Default/Alice"; "::/"] None)
                Fixture.start "service-token" tt [Fixture.alice] tt
                eq_refl eq_refl) as (Hres & _ & _ & Hparsed & _).
  split; [exact Hres|].
  apply (Hparsed "User:Default/Alice" (mkEntityName "user" "default" "alice"));
    [simpl; auto|reflexivity].
Defined.

(** C9, as stated, fails.  The raw input "::/" does not parse; the catalog
    answers with an entity that is a member of the target with an empty
    kind, the namespace ":" and an empty name; the canonical string of
    that target is "::/", which is returned: the result holds a string
    that is not fully qualified and that is a raw, unparsed input. *)
Lemma result_canonical_counterexample :
  let query := mkMemberClaimQuery ["::/"] None in
  let run :=
    resolveCatalogMembership (Fixture.client [Fixture.stray]) query
      Fixture.start in
  normalize "::/" = None
  /\ In "::/" (entityRefs query)
  /\ fst run = Ok ["::/"]
  /\ ~ fullyQualified "::/".
Proof.
  repeat split; [simpl; auto|].
  intros [_ (k & ns & n & Hk & Hns & Hn & Heq)].
  destruct k as [|c k]; [discriminate Hk|].
  rewrite append_cons in Heq. injection Heq as <- Heq.
  unfold segment in Hk. simpl in Hk. discriminate Hk.
Qed.

(* ===================================================================== *)
(** ** resolveCatalogMembership: references that do not parse *)
(* ===================================================================== *)

Lemma parsedRefs_drop (refs1 refs2 : list string) (bad : string) :
  normalize bad = None ->
  parsedRefs (refs1 ++ bad :: refs2) = parsedRefs (refs1 ++ refs2).
Proof.
  intros Hbad. rewrite !parsedRefs_app. f_equal.
  unfold parsedRefs.
  change (omap normalize (bad :: refs2))
    with (match normalize bad with
          | Some r => r :: omap normalize refs2
          | None => omap normalize refs2
          end).
  now rewrite Hbad.
Qed.

Lemma parsedRefs_none (refs : list string) :
  Forall (fun ref => normalize ref = None) refs -> parsedRefs refs = [].
Proof.
  unfold parsedRefs. induction 1 as [|ref refs Href _ IH]; [reflexivity|].
  change (omap normalize (ref :: refs))
    with (match normalize ref with
          | Some r => r :: omap normalize refs
          | None => omap normalize refs
          end).
  now rewrite Href.
Qed.

(** C3, as the code has it.  A raw reference that does not parse is left
    out of the batch filter and of the result: with it or without it in
    the input, the parsed references, hence all the calls to the
    collaborators, are the same, and so are the outcome (the returned value
    or the fault) and the world; the call can only fail with a
    collaborator's fault; the only warning it adds is its own, if there is
    a logger.  It is not left out of everything: it counts in the length
    of the input that the guard of the missing-entity diagnostic compares
    with the number of returned entities, so that, when the token and the
    catalog answer, the two traces differ by its warning and by the guard
    counting one more. *)
Theorem resolve_drops_unparsable {W Fault}
    (self : CatalogIdentityClient W Fault) (logger : option Logger)
    (refs1 refs2 : list string) (bad : string) (st : State W) :
  normalize bad = None ->
  let with_bad :=
    resolveCatalogMembership self
      (mkMemberClaimQuery (refs1 ++ bad :: refs2) logger) st in
  let without :=
    resolveCatalogMembership self
      (mkMemberClaimQuery (refs1 ++ refs2) logger) st in
  parsedRefs (refs1 ++ bad :: refs2) = parsedRefs (refs1 ++ refs2)
  /\ fst with_bad = fst without
  /\ world (snd with_bad) = world (snd without)
  /\ calls (trace (snd with_bad)) = calls (trace (snd without))
  /\ warnings (trace (snd with_bad))
     = warnings (trace st)
       ++ parseWarnings logger refs1
       ++ emitted logger
            (Log warn
               ("Failed to parse entityRef from " +:+ bad +:+ ", ignoring"))
       ++ parseWarnings logger refs2
  /\ warnings (trace (snd without))
     = warnings (trace st)
       ++ parseWarnings logger refs1 ++ parseWarnings logger refs2
  /\ (forall e, fst with_bad = Throw e ->
                exists fault, e = CollaboratorFault fault)
  /\ (forall token w1 entities w2,
        getToken (tokenManager self) (world st) = (inr token, w1) ->
        getEntities (catalogApi self)
          (FilterArray (map refFilter (parsedRefs (refs1 ++ refs2)))) token w1
        = (inr entities, w2) ->
        let queried :=
          [GetToken;
           GetEntities
             (FilterArray (map refFilter (parsedRefs (refs1 ++ refs2))))
             token] in
        let missing :=
          emitted logger (missingDiagnostic (refs1 ++ refs2) entities) in
        let final :=
          emitted logger
            (foundDiagnostic (membershipUnion (refs1 ++ refs2) entities)) in
        trace (snd with_bad)
        = trace st
          ++ parseWarnings logger refs1
          ++ emitted logger
               (Log warn
                  ("Failed to parse entityRef from " +:+ bad +:+ ", ignoring"))
          ++ parseWarnings logger refs2
          ++ queried
          ++ (if Nat.eqb (S (length (refs1 ++ refs2))) (length entities)
              then [] else missing)
          ++ final
        /\ trace (snd without)
           = trace st
             ++ parseWarnings logger refs1 ++ parseWarnings logger refs2
             ++ queried
             ++ (if Nat.eqb (length (refs1 ++ refs2)) (length entities)
                 then [] else missing)
             ++ final).
Proof.
  intros Hbad with_bad without.
  pose proof (parsedRefs_drop refs1 refs2 bad Hbad) as Hdrop.
  assert (Hwarn : parseWarnings logger (refs1 ++ bad :: refs2)
                  = parseWarnings logger refs1
                    ++ emitted logger
                         (Log warn ("Failed to parse entityRef from "
                                    +:+ bad +:+ ", ignoring"))
                    ++ parseWarnings logger refs2).
  { rewrite parseWarnings_app, parseWarnings_cons, parseWarnings_one.
    now rewrite Hbad. }
  split; [exact Hdrop|].
  assert (Hlen : length (refs1 ++ bad :: refs2) = S (length (refs1 ++ refs2))).
  { rewrite !length_app. simpl. lia. }
  assert (Htraces : forall token w1 entities w2,
    getToken (tokenManager self) (world st) = (inr token, w1) ->
    getEntities (catalogApi self)
      (FilterArray (map refFilter (parsedRefs (refs1 ++ refs2)))) token w1
    = (inr entities, w2) ->
    let queried :=
      [GetToken;
       GetEntities
         (FilterArray (map refFilter (parsedRefs (refs1 ++ refs2)))) token] in
    let missing :=
      emitted logger (missingDiagnostic (refs1 ++ refs2) entities) in
    let final :=
      emitted logger
        (foundDiagnostic (membershipUnion (refs1 ++ refs2) entities)) in
    trace (snd with_bad)
    = trace st
      ++ parseWarnings logger refs1
      ++ emitted logger
           (Log warn
              ("Failed to parse entityRef from " +:+ bad +:+ ", ignoring"))
      ++ parseWarnings logger refs2
      ++ queried
      ++ (if Nat.eqb (S (length (refs1 ++ refs2))) (length entities)
          then [] else missing)
      ++ final
    /\ trace (snd without)
       = trace st
         ++ parseWarnings logger refs1 ++ parseWarnings logger refs2
         ++ queried
         ++ (if Nat.eqb (length (refs1 ++ refs2)) (length entities)
             then [] else missing)
         ++ final).
  { intros token w1 entities w2 Htok Hent queried missing final.
    subst with_bad without queried missing final.
    rewrite (resolve_run_ok self
               (mkMemberClaimQuery (refs1 ++ refs2) logger) st _ _ _ _ Htok Hent).
    rewrite (resolve_run_ok self
               (mkMemberClaimQuery (refs1 ++ bad :: refs2) logger) st
               token w1 entities w2 Htok).
    2: { simpl. rewrite Hdrop. exact Hent. }
    simpl.
    unfold missingDiagnostic, membershipUnion.
    rewrite Hwarn, Hdrop, Hlen, parseWarnings_app.
    repeat rewrite <- app_assoc. split; reflexivity. }
  match goal with
  | |- ?A /\ ?B /\ ?C /\ ?D /\ ?E /\ ?F /\ _ =>
      cut (A /\ B /\ C /\ D /\ E /\ F);
      [intros (H1 & H2 & H3 & H4 & H5 & H6);
       repeat (split; [assumption|]); exact Htraces|]
  end.
  clear Htraces Hlen.
  subst with_bad without.
  destruct (getToken (tokenManager self) (world st)) as [[fault|token] w1] eqn:Htok.
  - rewrite !(resolve_run_no_token self _ st _ _ Htok). simpl.
    rewrite Hwarn, parseWarnings_app. read_trace.
    repeat rewrite <- app_assoc.
    repeat split; try reflexivity; intros e He; inversion He; subst; eauto.
  - destruct (getEntities (catalogApi self)
                (FilterArray (map refFilter (parsedRefs (refs1 ++ refs2))))
                token w1) as [[fault|entities] w2] eqn:Hent.
    + rewrite (resolve_run_no_catalog self
                 (mkMemberClaimQuery (refs1 ++ refs2) logger) st _ _ _ _ Htok Hent).
      rewrite (resolve_run_no_catalog self
                 (mkMemberClaimQuery (refs1 ++ bad :: refs2) logger) st
                 token w1 fault w2 Htok).
      2: { simpl. rewrite Hdrop. exact Hent. }
      simpl. rewrite Hwarn, Hdrop, parseWarnings_app. read_trace.
      repeat rewrite <- app_assoc.
    repeat split; try reflexivity; intros e He; inversion He; subst; eauto.
    + rewrite (resolve_run_ok self
                 (mkMemberClaimQuery (refs1 ++ refs2) logger) st _ _ _ _ Htok Hent).
      rewrite (resolve_run_ok self
                 (mkMemberClaimQuery (refs1 ++ bad :: refs2) logger) st
                 token w1 entities w2 Htok).
      2: { simpl. rewrite Hdrop. exact Hent. }
      simpl. rewrite Hwarn, Hdrop, parseWarnings_app.
      unfold membershipUnion. rewrite Hdrop. read_trace.
      repeat rewrite <- app_assoc.
    repeat split; try reflexivity; intros e He; inversion He; subst; eauto.
Qed.

Lemma resolve_drops_unparsable_witness :
  normalize "::/" = None
  /\ fst (resolveCatalogMembership (Fixture.client [Fixture.alice])
            (mkMemberClaimQuery (["alice"] ++ "::/" :: ["group:admins"])
               (Some WinstonLogger)) Fixture.start)
     = fst (resolveCatalogMembership (Fixture.client [Fixture.alice])
              (mkMemberClaimQuery (["alice"] ++ ["group:admins"])
                 (Some WinstonLogger)) Fixture.start).
Proof.
  split; [reflexivity|].
  apply (proj1 (proj2 (resolve_drops_unparsable
                         (Fixture.client [Fixture.alice]) (Some WinstonLogger)
                         ["alice"] ["group:admins"] "::/" Fixture.start
                         eq_refl))).
Defined.

(** C3, as stated, fails.  The catalog knows alice; on the input
    ["alice"; "::/"] the call emits, besides the warning for "::/", the
    missing-entity diagnostic (with an empty list), which it does not emit
    on the input ["alice"]: the reference that does not parse is still
    counted, and more than a warning is emitted on its account. *)
Lemma drops_unparsable_counterexample :
  let with_bad :=
    resolveCatalogMembership (Fixture.client [Fixture.alice])
      (mkMemberClaimQuery ["alice"; "::/"] (Some WinstonLogger))
      Fixture.start in
  let without :=
    resolveCatalogMembership (Fixture.client [Fixture.alice])
      (mkMemberClaimQuery ["alice"] (Some WinstonLogger)) Fixture.start in
  normalize "::/" = None
  /\ diagnostics (trace (snd with_bad))
     = [Log warn "Failed to parse entityRef from ::/, ignoring";
        Log debug "Entities not found for refs ";
        Log debug
          "Found catalog membership: user:default/alice,group:default/admins"]
  /\ diagnostics (trace (snd without))
     = [Log debug
          "Found catalog membership: user:default/alice,group:default/admins"].
Proof. repeat split. Qed.

(* ===================================================================== *)
(** ** resolveCatalogMembership: the diagnostics *)
(* ===================================================================== *)

Lemma missingEntityNames_In (resolved : list EntityName)
    (entities : list Entity) (s : string) :
  In s (missingEntityNames resolved entities)
  <-> In s (map stringifyEntityRef resolved)
      /\ ~ In s (map stringifyEntity entities).
Proof.
  unfold missingEntityNames. rewrite List.filter_In, negb_true_iff.
  rewrite <- (includes_In (map stringifyEntity entities) s).
  now rewrite not_true_iff_false.
Qed.

(** C7, as the code has it.  When the token and the catalog answer, the
    call returns a value, and the missing-entity diagnostic, which lists
    the canonical strings of the parsed references that are not the
    canonical string of a returned entity, is emitted between the catalog
    query and the final diagnostic exactly when there is a logger and the
    number of returned entities differs from the number of raw references
    of the input (parsed or not). *)
Theorem resolve_missing_diagnostic {W Fault}
    (self : CatalogIdentityClient W Fault) (query : MemberClaimQuery)
    (st : State W) token w1 entities w2 :
  getToken (tokenManager self) (world st) = (inr token, w1) ->
  getEntities (catalogApi self)
    (FilterArray (map refFilter (parsedRefs (entityRefs query)))) token w1
  = (inr entities, w2) ->
  let run := resolveCatalogMembership self query st in
  let before :=
    trace st ++ parseWarnings (logger query) (entityRefs query)
    ++ [GetToken;
        GetEntities
          (FilterArray (map refFilter (parsedRefs (entityRefs query)))) token] in
  let final :=
    emitted (logger query)
      (foundDiagnostic (membershipUnion (entityRefs query) entities)) in
  fst run = Ok (membershipUnion (entityRefs query) entities)
  /\ (length (entityRefs query) <> length entities ->
      trace (snd run)
      = before
        ++ emitted (logger query)
             (missingDiagnostic (entityRefs query) entities)
        ++ final)
  /\ (length (entityRefs query) = length entities ->
      trace (snd run) = before ++ final)
  /\ (forall s,
        In s (missingEntityNames (parsedRefs (entityRefs query)) entities)
        <-> In s (map stringifyEntityRef (parsedRefs (entityRefs query)))
            /\ ~ In s (map stringifyEntity entities)).
Proof.
  intros Htok Hent run before final. subst run before final.
  rewrite (resolve_run_ok self query st _ _ _ _ Htok Hent). simpl.
  split; [reflexivity|]. split; [|split].
  - intros Hne. apply Nat.eqb_neq in Hne. rewrite Hne.
    repeat rewrite <- app_assoc. reflexivity.
  - intros Heq. apply Nat.eqb_eq in Heq. rewrite Heq.
    repeat rewrite <- app_assoc. reflexivity.
  - apply missingEntityNames_In.
Qed.

Lemma resolve_missing_diagnostic_witness :
  trace (snd (resolveCatalogMembership (Fixture.client [Fixture.alice])
                (mkMemberClaimQuery ["alice"; "group:admins"]
                   (Some WinstonLogger)) Fixture.start))
  = [GetToken;
     GetEntities
       (FilterArray
          [{[ "kind" := "user"; "metadata.namespace" := "default";
              "metadata.name" := "alice" ]};
           {[ "kind" := "group"; "metadata.namespace" := "default";
              "metadata.name" := "admins" ]}])
       "service-token";
     Log debug "Entities not found for refs group:default/admins";
     Log debug
       "Found catalog membership: user:default/alice,group:default/admins"].
Proof.
  refine (proj1 (proj2 (resolve_missing_diagnostic
                          (Fixture.client [Fixture.alice])
                          (mkMemberClaimQuery ["alice"; "group:admins"]
                             (Some WinstonLogger))
                          Fixture.start "service-token" tt [Fixture.alice] tt
                          eq_refl eq_refl)) _).
  simpl. lia.
Defined.

(** C7, as stated, fails.  The input holds one reference that parses and
    one that does not; the catalog returns the one entity asked for, as
    many as there are parsed references, and the missing-entity diagnostic
    is emitted all the same (with an empty list). *)
Lemma missing_diagnostic_counterexample :
  let query := mkMemberClaimQuery ["::/"; "alice"] (Some WinstonLogger) in
  let entities := [Fixture.alice] in
  let run :=
    resolveCatalogMembership (Fixture.client entities) query Fixture.start in
  ~ (In (missingDiagnostic (entityRefs query) entities) (trace (snd run))
     <-> length entities <> length (parsedRefs (entityRefs query))).
Proof.
  intros query entities run [Hemitted _].
  apply Hemitted; [|reflexivity].
  vm_compute. tauto.
Qed.

(** C10. With a logger or without, the call returns the same value (or
    fails with the same fault), leaves the same world and makes the same
    calls to the collaborators; without a logger no diagnostic is emitted. *)
Theorem resolve_logger_irrelevant {W Fault}
    (self : CatalogIdentityClient W Fault) (refs : list string)
    (lg : Logger) (st : State W) :
  let with_logger :=
    resolveCatalogMembership self (mkMemberClaimQuery refs (Some lg)) st in
  let without :=
    resolveCatalogMembership self (mkMemberClaimQuery refs None) st in
  fst with_logger = fst without
  /\ world (snd with_logger) = world (snd without)
  /\ calls (trace (snd with_logger)) = calls (trace (snd without))
  /\ diagnostics (trace (snd without)) = diagnostics (trace st).
Proof.
  intros with_logger without. subst with_logger without.
  destruct (getToken (tokenManager self) (world st)) as [[fault|token] w1] eqn:Htok.
  - rewrite !(resolve_run_no_token self _ st _ _ Htok). read_trace. auto.
  - destruct (getEntities (catalogApi self)
                (FilterArray (map refFilter (parsedRefs refs)))
                token w1) as [[fault|entities] w2] eqn:Hent.
    + rewrite (resolve_run_no_catalog self (mkMemberClaimQuery refs (Some lg))
                 st _ _ _ _ Htok Hent).
      rewrite (resolve_run_no_catalog self (mkMemberClaimQuery refs None)
                 st _ _ _ _ Htok Hent).
      read_trace. auto.
    + rewrite (resolve_run_ok self (mkMemberClaimQuery refs (Some lg))
                 st _ _ _ _ Htok Hent).
      rewrite (resolve_run_ok self (mkMemberClaimQuery refs None)
                 st _ _ _ _ Htok Hent).
      read_trace. auto.
Qed.

(* ===================================================================== *)
(** ** resolveCatalogMembership: nothing to look up *)
(* ===================================================================== *)

(** C8, as the code has it.  When the input is empty, or none of its
    references parses, the call still asks for a token and, once it has
    one, still queries the catalog, once, with the empty array as filter;
    it returns the deduplicated canonical strings of the "memberOf" targets
    of whatever entities the catalog answers with, the empty result when
    there are no such targets; it fails only with a collaborator's fault. *)
Theorem resolve_nothing_parsed {W Fault}
    (self : CatalogIdentityClient W Fault) (query : MemberClaimQuery)
    (st : State W) :
  Forall (fun ref => normalize ref = None) (entityRefs query) ->
  let run := resolveCatalogMembership self query st in
  calls (trace (snd run))
  = calls (trace st)
    ++ GetToken
       :: match getToken (tokenManager self) (world st) with
          | (inr token, _) => [GetEntities (FilterArray []) token]
          | (inl _, _) => []
          end
  /\ (forall token w1 entities w2,
        getToken (tokenManager self) (world st) = (inr token, w1) ->
        getEntities (catalogApi self) (FilterArray []) token w1
        = (inr entities, w2) ->
        fst run
        = Ok (dedupFirst (map stringifyEntityRef (membershipTargets entities)))
        /\ (membershipTargets entities = [] -> fst run = Ok []))
  /\ (forall e, fst run = Throw e -> exists fault, e = CollaboratorFault fault).
Proof.
  intros Hnone run. subst run.
  pose proof (parsedRefs_none _ Hnone) as Hparsed.
  split; [|split; [|apply resolve_Throw_inv]].
  - destruct (getToken (tokenManager self) (world st))
      as [[fault|token] w1] eqn:Htok.
    + rewrite (resolve_run_no_token self query st _ _ Htok). now read_trace.
    + destruct (getEntities (catalogApi self)
                  (FilterArray (map refFilter (parsedRefs (entityRefs query))))
                  token w1) as [[fault|entities] w2] eqn:Hent.
      * rewrite (resolve_run_no_catalog self query st _ _ _ _ Htok Hent).
        rewrite Hparsed. now read_trace.
      * rewrite (resolve_run_ok self query st _ _ _ _ Htok Hent).
        rewrite Hparsed. now read_trace.
  - intros token w1 entities w2 Htok Hent.
    rewrite (resolve_run_ok self query st token w1 entities w2 Htok).
    2: { rewrite Hparsed. exact Hent. }
    unfold membershipUnion. rewrite Hparsed. simpl.
    split; [reflexivity|]. now intros ->.
Qed.

Lemma resolve_nothing_parsed_witness :
  Forall (fun ref => normalize ref = None) ["::/"; ""; "a/b/c"]
  /\ calls (trace (snd (resolveCatalogMembership (Fixture.client [])
                          (mkMemberClaimQuery ["::/"; ""; "a/b/c"] None)
                          Fixture.start)))
     = [GetToken; GetEntities (FilterArray []) "service-token"].
Proof.
  assert (H : Forall (fun ref => normalize ref = None) ["::/"; ""; "a/b/c"])
    by (repeat constructor).
  split; [exact H|].
  exact (proj1 (resolve_nothing_parsed (Fixture.client [])
                  (mkMemberClaimQuery ["::/"; ""; "a/b/c"] None)
                  Fixture.start H)).
Defined.

(** C8, as stated, fails.  On the empty input, and on an input none of
    whose references parses, the catalog is queried (with the empty array
    as filter); and when the catalog answers that query with an entity
    that has a "memberOf" relation, the result is not empty. *)
Lemma empty_input_counterexample :
  catalogQueries
    (trace (snd (resolveCatalogMembership (Fixture.client [])
                   (mkMemberClaimQuery [] None) Fixture.start)))
  <> []
  /\ catalogQueries
       (trace (snd (resolveCatalogMembership (Fixture.client [])
                      (mkMemberClaimQuery ["::/"; ""] None) Fixture.start)))
     <> []
  /\ fst (resolveCatalogMembership (Fixture.client [Fixture.alice])
            (mkMemberClaimQuery [] None) Fixture.start)
     <> Ok [].
Proof. repeat split; vm_compute; discriminate. Qed.

Example empty_input_run :
  resolveCatalogMembership (Fixture.client [Fixture.alice])
    (mkMemberClaimQuery [] None) Fixture.start
  = (Ok ["group:default/admins"],
     mkState tt [GetToken; GetEntities (FilterArray []) "service-token"]).
Proof. vm_compute. reflexivity. Qed.

Example no_token_run :
  resolveCatalogMembership
    (mkClient (Fixture.catalog [Fixture.alice]) Fixture.noTokens)
    (mkMemberClaimQuery ["alice"; "::/"] (Some WinstonLogger)) Fixture.start
  = (Throw (CollaboratorFault "token service down"),
     mkState tt
       [Log warn "Failed to parse entityRef from ::/, ignoring"; GetToken]).
Proof. vm_compute. reflexivity. Qed.

Example no_catalog_run :
  fst (findUser (mkClient Fixture.noCatalog Fixture.tokens)
         (mkUserQuery ∅) Fixture.start)
  = Throw (CollaboratorFault "catalog down").
Proof. vm_compute. reflexivity. Qed.

(* ===================================================================== *)
(** ** findUser: faults, tokens, diagnostics *)
(* ===================================================================== *)

Lemma findUser_run_no_token {W Fault} (self : CatalogIdentityClient W Fault)
    (query : UserQuery) (st : State W) fault w1 :
  getToken (tokenManager self) (world st) = (inl fault, w1) ->
  findUser self query st
  = (Throw (CollaboratorFault fault), mkState w1 (trace st ++ [GetToken])).
Proof.
  intros Htok. unfold findUser.
  now rewrite (bind_Throw _ _ _ _ _ (getToken_Throw self st fault w1 Htok)).
Qed.

Lemma findUser_run_no_catalog {W Fault} (self : CatalogIdentityClient W Fault)
    (query : UserQuery) (st : State W) token w1 fault w2 :
  getToken (tokenManager self) (world st) = (inr token, w1) ->
  getEntities (catalogApi self) (FilterRecord (userFilter query)) token w1
  = (inl fault, w2) ->
  findUser self query st
  = (Throw (CollaboratorFault fault),
     mkState w2
       (trace st
        ++ [GetToken; GetEntities (FilterRecord (userFilter query)) token])).
Proof.
  intros Htok Hent. unfold findUser.
  rewrite (bind_Ok _ _ _ _ _ (getToken_Ok self st token w1 Htok)).
  erewrite bind_Throw; [|apply getEntities_Throw; simpl; exact Hent].
  simpl. now rewrite <- app_assoc.
Qed.

(** X1. [findUser] passes the faults of its collaborators on, unchanged and
    without a retry: when the token manager rejects, the call fails with
    that fault and the catalog is not queried; when the catalog rejects,
    the call fails with that fault after the one query.  A call that fails
    with a collaborator's fault got it from one of the two. *)
Theorem findUser_faults {W Fault} (self : CatalogIdentityClient W Fault)
    (query : UserQuery) (st : State W) :
  (forall fault w1,
      getToken (tokenManager self) (world st) = (inl fault, w1) ->
      findUser self query st
      = (Throw (CollaboratorFault fault), mkState w1 (trace st ++ [GetToken])))
  /\ (forall token w1 fault w2,
        getToken (tokenManager self) (world st) = (inr token, w1) ->
        getEntities (catalogApi self) (FilterRecord (userFilter query)) token w1
        = (inl fault, w2) ->
        findUser self query st
        = (Throw (CollaboratorFault fault),
           mkState w2
             (trace st
              ++ [GetToken;
                  GetEntities (FilterRecord (userFilter query)) token])))
  /\ (forall fault,
        fst (findUser self query st) = Throw (CollaboratorFault fault) ->
        (exists w1,
            getToken (tokenManager self) (world st) = (inl fault, w1))
        \/ (exists token w1 w2,
              getToken (tokenManager self) (world st) = (inr token, w1)
              /\ getEntities (catalogApi self)
                   (FilterRecord (userFilter query)) token w1
                 = (inl fault, w2))).
Proof.
  split; [apply findUser_run_no_token|].
  split; [apply findUser_run_no_catalog|].
  intros fault.
  destruct (getToken (tokenManager self) (world st))
    as [[fault'|token] w1] eqn:Htok.
  - rewrite (findUser_run_no_token self query st _ _ Htok). simpl.
    intros [= ->]. left. now exists w1.
  - destruct (getEntities (catalogApi self) (FilterRecord (userFilter query))
                token w1) as [[fault'|items] w2] eqn:Hent.
    + rewrite (findUser_run_no_catalog self query st _ _ _ _ Htok Hent). simpl.
      intros [= ->]. right. now exists token, w1, w2.
    + rewrite (findUser_run self query st _ _ _ _ Htok Hent). simpl.
      destruct items as [|e [|e' items]]; discriminate.
Qed.

Lemma findUser_faults_witness :
  findUser (mkClient (Fixture.catalog [Fixture.alice]) Fixture.noTokens)
    (mkUserQuery {["email" := "a@example.com"]}) Fixture.start
  = (Throw (CollaboratorFault "token service down"), mkState tt [GetToken])
  /\ fst (findUser (mkClient Fixture.noCatalog Fixture.tokens)
            (mkUserQuery {["email" := "a@example.com"]}) Fixture.start)
     = Throw (CollaboratorFault "catalog down").
Proof.
  split.
  - exact (proj1 (findUser_faults
                    (mkClient (Fixture.catalog [Fixture.alice]) Fixture.noTokens)
                    (mkUserQuery {["email" := "a@example.com"]}) Fixture.start)
             "token service down" tt eq_refl).
  - exact (f_equal fst
             (proj1 (proj2 (findUser_faults
                              (mkClient Fixture.noCatalog Fixture.tokens)
                              (mkUserQuery {["email" := "a@example.com"]})
                              Fixture.start))
                "service-token" tt "catalog down" tt eq_refl eq_refl)).
Defined.

Lemma tokenRequests_app (t1 t2 : list Event) :
  tokenRequests (t1 ++ t2) = tokenRequests t1 ++ tokenRequests t2.
Proof. apply List.filter_app. Qed.

Lemma tokenRequests_calls (t : list Event) :
  tokenRequests (calls t) = tokenRequests t.
Proof.
  unfold tokenRequests, calls. rewrite filter_filter.
  apply List.filter_ext. now intros [].
Qed.

(** X2. Every call of [findUser] asks the token manager for a token
    exactly once, whatever happened before and whatever the outcome (the
    token is not cached), and emits no diagnostic. *)
Theorem findUser_one_token_no_log {W Fault}
    (self : CatalogIdentityClient W Fault) (query : UserQuery) (st : State W) :
  tokenRequests (trace (snd (findUser self query st)))
  = tokenRequests (trace st) ++ [GetToken]
  /\ diagnostics (trace (snd (findUser self query st)))
     = diagnostics (trace st).
Proof.
  destruct (getToken (tokenManager self) (world st))
    as [[fault|token] w1] eqn:Htok.
  - rewrite (findUser_run_no_token self query st _ _ Htok). simpl.
    now rewrite tokenRequests_app, diagnostics_app, app_nil_r.
  - destruct (getEntities (catalogApi self) (FilterRecord (userFilter query))
                token w1) as [[fault|items] w2] eqn:Hent.
    + rewrite (findUser_run_no_catalog self query st _ _ _ _ Htok Hent). simpl.
      now rewrite tokenRequests_app, diagnostics_app, app_nil_r.
    + rewrite (findUser_run self query st _ _ _ _ Htok Hent). simpl.
      now rewrite tokenRequests_app, diagnostics_app, app_nil_r.
Qed.

(** X3. The filter of [findUser] grows with the annotations one entry at a
    time: adding (or overwriting) the annotation [key] with [value] adds
    (or overwrites) the entry metadata.annotations.<key> = <value> and
    changes nothing else; without annotations the filter is kind = "user"
    alone. *)
Theorem userFilter_insert (key value : string) (a : gmap string string) :
  userFilter (mkUserQuery (<[key := value]> a))
  = <["metadata.annotations." +:+ key := value]> (userFilter (mkUserQuery a))
  /\ userFilter (mkUserQuery ∅) = {["kind" := "user"]}.
Proof.
  split.
  - rewrite !userFilter_union. simpl.
    rewrite (kmap_insert (String.app "metadata.annotations.")).
    now rewrite insert_union_l.
  - rewrite userFilter_union. simpl.
    rewrite (kmap_empty (String.app "metadata.annotations.")).
    now rewrite (left_id_L ∅ (∪)).
Qed.

(* ===================================================================== *)
(** ** resolveCatalogMembership: faults and calls *)
(* ===================================================================== *)

(** X4. [resolveCatalogMembership] passes the faults of its collaborators
    on, unchanged and without a retry.  The references are parsed, and the
    warnings given, before any collaborator is called; when the token
    manager rejects, the catalog is not queried; when the catalog rejects,
    neither the missing-entity nor the final diagnostic is emitted.  A
    call that fails got its fault from one of the two collaborators. *)
Theorem resolve_faults {W Fault} (self : CatalogIdentityClient W Fault)
    (query : MemberClaimQuery) (st : State W) :
  let filter := FilterArray (map refFilter (parsedRefs (entityRefs query))) in
  let parsed := trace st ++ parseWarnings (logger query) (entityRefs query) in
  (forall fault w1,
      getToken (tokenManager self) (world st) = (inl fault, w1) ->
      resolveCatalogMembership self query st
      = (Throw (CollaboratorFault fault), mkState w1 (parsed ++ [GetToken])))
  /\ (forall token w1 fault w2,
        getToken (tokenManager self) (world st) = (inr token, w1) ->
        getEntities (catalogApi self) filter token w1 = (inl fault, w2) ->
        resolveCatalogMembership self query st
        = (Throw (CollaboratorFault fault),
           mkState w2 (parsed ++ [GetToken; GetEntities filter token])))
  /\ (forall e,
        fst (resolveCatalogMembership self query st) = Throw e ->
        (exists fault w1,
            e = CollaboratorFault fault
            /\ getToken (tokenManager self) (world st) = (inl fault, w1))
        \/ (exists fault token w1 w2,
              e = CollaboratorFault fault
              /\ getToken (tokenManager self) (world st) = (inr token, w1)
              /\ getEntities (catalogApi self) filter token w1
                 = (inl fault, w2))).
Proof.
  intros filter parsed. subst filter parsed. split; [|split].
  - intros fault w1 Htok.
    rewrite (resolve_run_no_token self query st _ _ Htok).
    now rewrite app_assoc.
  - intros token w1 fault w2 Htok Hent.
    rewrite (resolve_run_no_catalog self query st _ _ _ _ Htok Hent).
    now rewrite app_assoc.
  - intros e.
    destruct (getToken (tokenManager self) (world st))
      as [[fault|token] w1] eqn:Htok.
    + rewrite (resolve_run_no_token self query st _ _ Htok). simpl.
      intros [= <-]. left. now exists fault, w1.
    + destruct (getEntities (catalogApi self)
                  (FilterArray (map refFilter (parsedRefs (entityRefs query))))
                  token w1) as [[fault|entities] w2] eqn:Hent.
      * rewrite (resolve_run_no_catalog self query st _ _ _ _ Htok Hent).
        simpl. intros [= <-]. right. now exists fault, token, w1, w2.
      * now rewrite (resolve_run_ok self query st _ _ _ _ Htok Hent).
Qed.

Lemma resolve_faults_witness :
  resolveCatalogMembership
    (mkClient (Fixture.catalog [Fixture.alice]) Fixture.noTokens)
    (mkMemberClaimQuery ["alice"; "::/"] (Some WinstonLogger)) Fixture.start
  = (Throw (CollaboratorFault "token service down"),
     mkState tt
       [Log warn "Failed to parse entityRef from ::/, ignoring"; GetToken])
  /\ fst (resolveCatalogMembership
            (mkClient Fixture.noCatalog Fixture.tokens)
            (mkMemberClaimQuery ["alice"; "::/"] (Some WinstonLogger))
            Fixture.start)
     = Throw (CollaboratorFault "catalog down").
Proof.
  split.
  - exact (proj1 (resolve_faults
                    (mkClient (Fixture.catalog [Fixture.alice]) Fixture.noTokens)
                    (mkMemberClaimQuery ["alice"; "::/"] (Some WinstonLogger))
                    Fixture.start)
             "token service down" tt eq_refl).
  - exact (f_equal fst
             (proj1 (proj2 (resolve_faults
                              (mkClient Fixture.noCatalog Fixture.tokens)
                              (mkMemberClaimQuery ["alice"; "::/"]
                                 (Some WinstonLogger))
                              Fixture.start))
                "service-token" tt "catalog down" tt eq_refl eq_refl)).
Defined.

Lemma parsedRefs_cons (ref : string) (refs : list string) :
  parsedRefs (ref :: refs)
  = match normalize ref with
    | Some r => r :: parsedRefs refs
    | None => parsedRefs refs
    end.
Proof. reflexivity. Qed.

Lemma parsedRefs_length (refs : list string) :
  length (parsedRefs refs) <= length refs.
Proof.
  induction refs as [|ref refs IH]; [reflexivity|].
  rewrite parsedRefs_cons. destruct (normalize ref); simpl; lia.
Qed.

(** X5. Whatever the size of the input, a call of
    [resolveCatalogMembership] asks for a token exactly once and queries
    the catalog at most once: once the token is there, with that token and
    with an array filter that holds one record per parsed reference, in
    input order (so never more records than raw references). *)
Theorem resolve_one_round_trip {W Fault}
    (self : CatalogIdentityClient W Fault) (query : MemberClaimQuery)
    (st : State W) :
  let run := resolveCatalogMembership self query st in
  let records := map refFilter (parsedRefs (entityRefs query)) in
  calls (trace (snd run))
  = calls (trace st)
    ++ GetToken
       :: match getToken (tokenManager self) (world st) with
          | (inr token, _) => [GetEntities (FilterArray records) token]
          | (inl _, _) => []
          end
  /\ tokenRequests (trace (snd run)) = tokenRequests (trace st) ++ [GetToken]
  /\ length records = length (parsedRefs (entityRefs query))
  /\ length records <= length (entityRefs query).
Proof.
  intros run records. subst run records.
  assert (Hcalls :
    calls (trace (snd (resolveCatalogMembership self query st)))
    = calls (trace st)
      ++ GetToken
         :: match getToken (tokenManager self) (world st) with
            | (inr token, _) =>
                [GetEntities
                   (FilterArray (map refFilter (parsedRefs (entityRefs query))))
                   token]
            | (inl _, _) => []
            end).
  { destruct (getToken (tokenManager self) (world st))
      as [[fault|token] w1] eqn:Htok.
    - rewrite (resolve_run_no_token self query st _ _ Htok). now read_trace.
    - destruct (getEntities (catalogApi self)
                  (FilterArray (map refFilter (parsedRefs (entityRefs query))))
                  token w1) as [[fault|entities] w2] eqn:Hent.
      + rewrite (resolve_run_no_catalog self query st _ _ _ _ Htok Hent).
        now read_trace.
      + rewrite (resolve_run_ok self query st _ _ _ _ Htok Hent).
        now read_trace. }
  split; [exact Hcalls|]. split; [|split].
  - rewrite <- tokenRequests_calls, Hcalls, tokenRequests_app.
    rewrite tokenRequests_calls.
    now destruct (getToken (tokenManager self) (world st)) as [[?|?] ?].
  - apply length_map.
  - rewrite length_map. apply parsedRefs_length.
Qed.

(** X6. The record the batch filter holds for a reference has exactly the
    three entries kind, metadata.namespace and metadata.name, with the
    three fields of the reference as values; two references with the same
    record are the same reference. *)
Theorem refFilter_entries (ref : EntityName) :
  refFilter ref !! "kind" = Some (kind ref)
  /\ refFilter ref !! "metadata.namespace" = Some (namespace ref)
  /\ refFilter ref !! "metadata.name" = Some (name ref)
  /\ size (refFilter ref) = 3
  /\ (forall key v, refFilter ref !! key = Some v ->
        key = "kind" \/ key = "metadata.namespace" \/ key = "metadata.name")
  /\ (forall ref', refFilter ref = refFilter ref' -> ref = ref').
Proof.
  assert (Hk : forall r, refFilter r !! "kind" = Some (kind r)).
  { intros r. unfold refFilter. apply lookup_insert_eq. }
  assert (Hns : forall r,
             refFilter r !! "metadata.namespace" = Some (namespace r)).
  { intros r. unfold refFilter.
    rewrite lookup_insert_ne by discriminate. apply lookup_insert_eq. }
  assert (Hn : forall r, refFilter r !! "metadata.name" = Some (name r)).
  { intros r. unfold refFilter.
    rewrite !lookup_insert_ne by discriminate. apply lookup_singleton_eq. }
  split; [apply Hk|]. split; [apply Hns|]. split; [apply Hn|].
  split; [|split].
  - unfold refFilter.
    rewrite map_size_insert_None.
    2: { rewrite lookup_insert_ne by discriminate.
         now apply lookup_singleton_ne. }
    rewrite map_size_insert_None by now apply lookup_singleton_ne.
    now rewrite map_size_singleton.
  - intros key v. unfold refFilter. intros H.
    apply lookup_insert_Some in H as [[<- _]|[_ H]]; [now left|].
    apply lookup_insert_Some in H as [[<- _]|[_ H]]; [now right; left|].
    apply lookup_singleton_Some in H as [<- _]. now right; right.
  - intros ref' Heq.
    pose proof (Hk ref) as H1. pose proof (Hns ref) as H2.
    pose proof (Hn ref) as H3.
    rewrite Heq in H1, H2, H3. rewrite Hk in H1. rewrite Hns in H2.
    rewrite Hn in H3. destruct ref, ref'. simpl in *. congruence.
Qed.

Lemma parseWarnings_length (lg : Logger) (refs : list string) :
  length (parseWarnings (Some lg) refs) + length (parsedRefs refs)
  = length refs.
Proof.
  induction refs as [|ref refs IH]; [reflexivity|].
  rewrite parseWarnings_cons, length_app, parseWarnings_one, parsedRefs_cons.
  destruct (normalize ref); simpl in *; lia.
Qed.

(** X7. Every raw reference is accounted for: with a logger, the warnings
    a call emits and the records of its batch filter add up to the length
    of the input, whatever the outcome of the call; without a logger the
    call emits no warning. *)
Theorem resolve_accounts_for_input {W Fault}
    (self : CatalogIdentityClient W Fault) (refs : list string)
    (lg : Logger) (st : State W) :
  length (warnings
            (trace (snd (resolveCatalogMembership self
                           (mkMemberClaimQuery refs (Some lg)) st))))
  + length (map refFilter (parsedRefs refs))
  = length (warnings (trace st)) + length refs
  /\ warnings
       (trace (snd (resolveCatalogMembership self
                      (mkMemberClaimQuery refs None) st)))
     = warnings (trace st).
Proof.
  assert (H : forall logger,
    warnings
      (trace (snd (resolveCatalogMembership self
                     (mkMemberClaimQuery refs logger) st)))
    = warnings (trace st) ++ parseWarnings logger refs).
  { intros logger.
    destruct (getToken (tokenManager self) (world st))
      as [[fault|token] w1] eqn:Htok.
    - rewrite (resolve_run_no_token self _ st _ _ Htok). now read_trace.
    - destruct (getEntities (catalogApi self)
                  (FilterArray (map refFilter (parsedRefs refs)))
                  token w1) as [[fault|entities] w2] eqn:Hent.
      + rewrite (resolve_run_no_catalog self
                   (mkMemberClaimQuery refs logger) st _ _ _ _ Htok Hent).
        now read_trace.
      + rewrite (resolve_run_ok self
                   (mkMemberClaimQuery refs logger) st _ _ _ _ Htok Hent).
        now read_trace. }
  split.
  - rewrite H, length_app, length_map.
    pose proof (parseWarnings_length lg refs). lia.
  - rewrite H. simpl. apply app_nil_r.
Qed.

(* ===================================================================== *)
(** ** resolveCatalogMembership: what the result holds *)
(* ===================================================================== *)

Lemma parsedRefs_lower (refs1 refs2 : list string) :
  map Js.toLocaleLowerCase refs1 = map Js.toLocaleLowerCase refs2 ->
  parsedRefs refs1 = parsedRefs refs2.
Proof.
  revert refs2. induction refs1 as [|r1 refs1 IH]; intros [|r2 refs2] H;
    try discriminate; [reflexivity|].
  simpl in H. injection H as Hr Hrest.
  rewrite !parsedRefs_cons, (IH _ Hrest).
  unfold normalize. now rewrite Hr.
Qed.

(** X8. The call does not see the case of its input: two inputs that agree
    up to case, reference by reference, lead to the same calls to the
    collaborators (the same batch filter), the same outcome and the same
    world. *)
Theorem resolve_case_insensitive {W Fault}
    (self : CatalogIdentityClient W Fault) (logger : option Logger)
    (refs1 refs2 : list string) (st : State W) :
  map Js.toLocaleLowerCase refs1 = map Js.toLocaleLowerCase refs2 ->
  let run1 :=
    resolveCatalogMembership self (mkMemberClaimQuery refs1 logger) st in
  let run2 :=
    resolveCatalogMembership self (mkMemberClaimQuery refs2 logger) st in
  fst run1 = fst run2
  /\ world (snd run1) = world (snd run2)
  /\ calls (trace (snd run1)) = calls (trace (snd run2)).
Proof.
  intros Hlower run1 run2. subst run1 run2.
  pose proof (parsedRefs_lower _ _ Hlower) as Hparsed.
  destruct (getToken (tokenManager self) (world st))
    as [[fault|token] w1] eqn:Htok.
  - rewrite !(resolve_run_no_token self _ st _ _ Htok). now read_trace.
  - destruct (getEntities (catalogApi self)
                (FilterArray (map refFilter (parsedRefs refs2)))
                token w1) as [[fault|entities] w2] eqn:Hent.
    + rewrite (resolve_run_no_catalog self
                 (mkMemberClaimQuery refs2 logger) st _ _ _ _ Htok Hent).
      rewrite (resolve_run_no_catalog self
                 (mkMemberClaimQuery refs1 logger) st token w1 fault w2 Htok).
      2: { simpl. rewrite Hparsed. exact Hent. }
      simpl. rewrite Hparsed. now read_trace.
    + rewrite (resolve_run_ok self
                 (mkMemberClaimQuery refs2 logger) st _ _ _ _ Htok Hent).
      rewrite (resolve_run_ok self
                 (mkMemberClaimQuery refs1 logger) st token w1 entities w2 Htok).
      2: { simpl. rewrite Hparsed. exact Hent. }
      simpl. unfold membershipUnion. rewrite Hparsed. now read_trace.
Qed.

Lemma resolve_case_insensitive_witness :
  fst (resolveCatalogMembership (Fixture.client [Fixture.alice])
         (mkMemberClaimQuery ["User:Default/ALICE"; "Group:Admins"] None)
         Fixture.start)
  = fst (resolveCatalogMembership (Fixture.client [Fixture.alice])
           (mkMemberClaimQuery ["user:default/alice"; "group:admins"] None)
           Fixture.start).
Proof.
  exact (proj1 (resolve_case_insensitive (Fixture.client [Fixture.alice]) None
                  ["User:Default/ALICE"; "Group:Admins"]
                  ["user:default/alice"; "group:admins"] Fixture.start
                  eq_refl)).
Defined.

(** X9. The result is a superset of the input, as far as it parses: when
    the token and the catalog answer, the canonical string of every raw
    reference that parses is in the result, found in the catalog or not;
    in particular a raw reference that is already its own canonical string
    is returned as it is, and every name the missing-entity diagnostic
    lists is in the result. *)
Theorem resolve_returns_superset {W Fault}
    (self : CatalogIdentityClient W Fault) (query : MemberClaimQuery)
    (st : State W) token w1 entities w2 :
  getToken (tokenManager self) (world st) = (inr token, w1) ->
  getEntities (catalogApi self)
    (FilterArray (map refFilter (parsedRefs (entityRefs query)))) token w1
  = (inr entities, w2) ->
  exists res,
    fst (resolveCatalogMembership self query st) = Ok res
    /\ (forall raw r, In raw (entityRefs query) -> normalize raw = Some r ->
          In (stringifyEntityRef r) res)
    /\ (forall raw r, In raw (entityRefs query) -> normalize raw = Some r ->
          stringifyEntityRef r = raw -> In raw res)
    /\ (forall s,
          In s (missingEntityNames (parsedRefs (entityRefs query)) entities) ->
          In s res).
Proof.
  intros Htok Hent. exists (membershipUnion (entityRefs query) entities).
  rewrite (resolve_run_ok self query st _ _ _ _ Htok Hent). simpl.
  assert (Hin : forall raw r, In raw (entityRefs query) ->
                  normalize raw = Some r ->
                  In (stringifyEntityRef r)
                    (membershipUnion (entityRefs query) entities)).
  { intros raw r Hraw Hnorm. apply membershipUnion_In. left.
    apply in_map. apply parsedRefs_In. now exists raw. }
  split; [reflexivity|]. split; [exact Hin|]. split.
  - intros raw r Hraw Hnorm Heq. rewrite <- Heq. now apply (Hin raw).
  - intros s Hs. apply missingEntityNames_In in Hs as [Hs _].
    apply membershipUnion_In. now left.
Qed.

Lemma resolve_returns_superset_witness :
  exists res,
    fst (resolveCatalogMembership (Fixture.client [])
           (mkMemberClaimQuery ["user:default/bob"; "Carol"] None)
           Fixture.start) = Ok res
    /\ In "user:default/bob" res /\ In "user:default/carol" res.
Proof.
  destruct (resolve_returns_superset (Fixture.client [])
              (mkMemberClaimQuery ["user:default/bob"; "Carol"] None)
              Fixture.start "service-token" tt [] tt eq_refl eq_refl)
    as (res & Hres & Hin & Hsame & _).
  exists res. split; [exact Hres|]. split.
  - apply (Hsame "user:default/bob" (mkEntityName "user" "default" "bob"));
      [simpl; auto|reflexivity|reflexivity].
  - apply (Hin "Carol" (mkEntityName "user" "default" "carol"));
      [simpl; auto|reflexivity].
Defined.

Lemma membershipTargets_none (entities : list Entity) :
  (forall e rs r, In e entities -> relations e = Some rs -> In r rs ->
                  type r <> "memberOf") ->
  membershipTargets entities = [].
Proof.
  intros Hnone.
  destruct (membershipTargets entities) as [|t ts] eqn:E; [reflexivity|].
  assert (Hin : In t (membershipTargets entities)) by (rewrite E; now left).
  apply membershipTargets_In in Hin as (e & rs & r & He & Hrs & Hr & Hty & _).
  now destruct (Hnone e rs r He Hrs Hr).
Qed.

(** X10. When the catalog answers with no entity, or only with entities
    that have no relation of type "memberOf" (entities without a relation
    list included), the call does not fail and returns exactly the
    canonical strings of the parsed inputs, deduplicated, in input order:
    references the catalog does not know are kept. *)
Theorem resolve_without_memberships {W Fault}
    (self : CatalogIdentityClient W Fault) (query : MemberClaimQuery)
    (st : State W) token w1 entities w2 :
  getToken (tokenManager self) (world st) = (inr token, w1) ->
  getEntities (catalogApi self)
    (FilterArray (map refFilter (parsedRefs (entityRefs query)))) token w1
  = (inr entities, w2) ->
  (forall e rs r, In e entities -> relations e = Some rs -> In r rs ->
                  type r <> "memberOf") ->
  fst (resolveCatalogMembership self query st)
  = Ok (dedupFirst (map stringifyEntityRef (parsedRefs (entityRefs query)))).
Proof.
  intros Htok Hent Hnone.
  rewrite (resolve_run_ok self query st _ _ _ _ Htok Hent). simpl.
  unfold membershipUnion. rewrite (membershipTargets_none _ Hnone). simpl.
  now rewrite app_nil_r.
Qed.

Lemma resolve_without_memberships_witness :
  fst (resolveCatalogMembership (Fixture.client [Fixture.alice2])
         (mkMemberClaimQuery ["Alice2"; "bob"; "alice2"] None) Fixture.start)
  = Ok ["user:default/alice2"; "user:default/bob"].
Proof.
  refine (resolve_without_memberships (Fixture.client [Fixture.alice2])
            (mkMemberClaimQuery ["Alice2"; "bob"; "alice2"] None)
            Fixture.start "service-token" tt [Fixture.alice2] tt
            eq_refl eq_refl _).
  intros e rs r [<-|[]] Hrs. discriminate Hrs.
Defined.

Lemma dedupFirst_id (xs : list string) : NoDup xs -> dedupFirst xs = xs.
Proof.
  induction 1 as [|x xs Hx _ IH]; [reflexivity|]. simpl. rewrite IH. f_equal.
  rewrite list_elem_of_In in Hx. clear IH.
  induction xs as [|y ys IHys]; [reflexivity|]. simpl.
  destruct (String.eqb x y) eqn:E.
  - apply String.eqb_eq in E. subst y. destruct Hx. now left.
  - simpl. f_equal. apply IHys. intros Hin. apply Hx. now right.
Qed.

(** X11. The deduplication neither reorders nor drops anything that is not
    a repetition: when the canonical strings of the parsed inputs and of
    the membership targets are pairwise distinct, the call returns them
    all, the inputs in input order and then the targets in the order of
    the returned entities and of their relation lists. *)
Theorem resolve_distinct_keeps_all {W Fault}
    (self : CatalogIdentityClient W Fault) (query : MemberClaimQuery)
    (st : State W) token w1 entities w2 :
  getToken (tokenManager self) (world st) = (inr token, w1) ->
  getEntities (catalogApi self)
    (FilterArray (map refFilter (parsedRefs (entityRefs query)))) token w1
  = (inr entities, w2) ->
  NoDup (map stringifyEntityRef (parsedRefs (entityRefs query))
         ++ map stringifyEntityRef (flat_map memberOfTargets entities)) ->
  fst (resolveCatalogMembership self query st)
  = Ok (map stringifyEntityRef (parsedRefs (entityRefs query))
        ++ map stringifyEntityRef (flat_map memberOfTargets entities)).
Proof.
  intros Htok Hent Hnd.
  rewrite (resolve_run_ok self query st _ _ _ _ Htok Hent). simpl.
  unfold membershipUnion. rewrite <- flat_map_memberOf.
  now rewrite (dedupFirst_id _ Hnd).
Qed.

Lemma resolve_distinct_keeps_all_witness :
  fst (resolveCatalogMembership (Fixture.client [Fixture.alice])
         (mkMemberClaimQuery ["bob"; "Alice"] None) Fixture.start)
  = Ok ["user:default/bob"; "user:default/alice"; "group:default/admins"].
Proof.
  refine (resolve_distinct_keeps_all (Fixture.client [Fixture.alice])
            (mkMemberClaimQuery ["bob"; "Alice"] None)
            Fixture.start "service-token" tt [Fixture.alice] tt
            eq_refl eq_refl _).
  vm_compute. repeat constructor; rewrite list_elem_of_In; simpl;
    intuition discriminate.
Defined.
